(** * Descriptive statistics of [statistic.py]

    A shallow embedding of the functions of [src/statistic.py]
    ([descriptive_stats_numeric], [descriptive_stats_categorical],
    [overview_df], [analyze_dataset] and the two per-kind table loops)
    together with the few numpy / scipy / pandas routines they call.

    Modelling conventions.
    - A finite floating-point number is an exact rational ([Q]); the results
      numpy produces outside the rationals (the quotient [0/0], the infinite
      quotients) are the extra constructors of [npfloat].  Rounding error of
      binary floating point is not represented, and neither are infinite
      values stored in a column nor the overflow of a finite one.
    - A series carries its dtype.  The entries of an [int64] series are
      integers, and the one operation the code performs in 64-bit integer
      arithmetic, the subtraction inside [np.percentile], wraps around.
      Columns of dtype bool, datetime or category are not represented.
    - A missing entry (NaN / None) of a column is [None]; [dropna] removes
      exactly those.
    - A Python exception is the [Raise] constructor of [result]; nothing in
      [statistic.py] catches an exception, so a [Raise] of a callee is the
      [Raise] of its caller.
    - The dictionaries with a fixed set of literal keys are records whose
      fields carry the keys' names; [dict.get] on the statistics dictionary
      is a lookup in the tagged union [stats]. *)

From Stdlib Require Import String List ZArith QArith Qround Qminmax Qabs.
From Stdlib Require Import Lqa Lia Bool Permutation Sorted.
Import ListNotations.

Local Open Scope string_scope.
Local Open Scope Z_scope.
Local Open Scope Q_scope.

(** ** Exceptions *)

Inductive exn : Type :=
| ValueError (msg : string).

Inductive result (A : Type) : Type :=
| Ok (a : A)
| Raise (e : exn).

Arguments Ok {A} a.
Arguments Raise {A} e.

Definition bind {A B : Type} (c : result A) (k : A -> result B) : result B :=
  match c with
  | Ok a => k a
  | Raise e => Raise e
  end.

Notation "x <- c ;; k" := (bind c (fun x => k))
  (at level 61, c at next level, right associativity).

(** ** Numbers *)

(** A numpy [float64] scalar: a rational, or one of the three values that
    a division by zero can produce. *)
Inductive npfloat : Type :=
| Finite (q : Q)
| PosInf
| NegInf
| NaN.

Definition Qlt_bool (x y : Q) : bool := negb (Qle_bool y x).

(** [x / y] on numpy scalars: a zero divisor gives NaN or an infinity (with
    a warning), never an exception. *)
Definition np_true_divide (x y : Q) : npfloat :=
  if Qeq_bool y 0 then
    if Qeq_bool x 0 then NaN
    else if Qlt_bool 0 x then PosInf else NegInf
  else Finite (x / y).

Definition np_sign (x : npfloat) : comparison :=
  match x with
  | Finite q => q ?= 0
  | PosInf => Gt
  | NegInf => Lt
  | NaN => Eq
  end.

Definition np_multiply (x y : npfloat) : npfloat :=
  match x, y with
  | Finite a, Finite b => Finite (a * b)
  | NaN, _ | _, NaN => NaN
  | _, _ =>
      match np_sign x, np_sign y with
      | Eq, _ | _, Eq => NaN
      | Gt, Gt | Lt, Lt => PosInf
      | _, _ => NegInf
      end
  end.

(** [np.rint]: the nearest integer, a tie going to the even neighbour. *)
Definition rint (x : Q) : Z :=
  let f := Qfloor x in
  let d := x - inject_Z f in
  if Qlt_bool d (1 # 2) then f
  else if Qlt_bool (1 # 2) d then (f + 1)%Z
  else if Z.even f then f else (f + 1)%Z.

(** [round(x, decimals)] on a numpy scalar: scale, [rint], scale back. *)
Definition np_round (x : npfloat) (decimals : nat) : npfloat :=
  match x with
  | Finite q =>
      let scale := inject_Z (10 ^ Z.of_nat decimals) in
      Finite (inject_Z (rint (q * scale)) / scale)
  | _ => x
  end.

(** ** Series *)

(** The dtypes of the columns that are represented. *)
Inductive np_dtype : Type :=
| int64
| float64
| object.

Record Series (A : Type) : Type := mkSeries {
  name : string;
  dtype : np_dtype;
  values : list A
}.

Arguments mkSeries {A} name dtype values.
Arguments name {A} s.
Arguments dtype {A} s.
Arguments values {A} s.

Definition len {A : Type} (s : Series A) : nat := length (values s).

Fixpoint dropna_list {A : Type} (l : list (option A)) : list A :=
  match l with
  | [] => []
  | Some v :: l' => v :: dropna_list l'
  | None :: l' => dropna_list l'
  end.

Definition dropna {A : Type} (s : Series (option A)) : Series A :=
  mkSeries (name s) (dtype s) (dropna_list (values s)).

Definition isnull {A : Type} (c : option A) : bool :=
  match c with
  | None => true
  | Some _ => false
  end.

(** [s.isnull().sum()] *)
Definition isnull_sum {A : Type} (s : Series (option A)) : nat :=
  length (filter isnull (values s)).

(** Distinct values in order of first appearance. *)
Fixpoint unique {A : Type} (eqb : A -> A -> bool) (l : list A) : list A :=
  match l with
  | [] => []
  | x :: l' => x :: filter (fun y => negb (eqb x y)) (unique eqb l')
  end.

(** [s.nunique()]: the number of distinct non-missing values. *)
Definition nunique {A : Type} (eqb : A -> A -> bool) (l : list A) : nat :=
  length (unique eqb l).

(** ** numpy: sorting and percentiles *)

Fixpoint insert (x : Q) (l : list Q) : list Q :=
  match l with
  | [] => [x]
  | y :: l' => if Qle_bool x y then x :: l else y :: insert x l'
  end.

Definition np_sort (a : list Q) : list Q := fold_right insert [] a.

(** [arr[i]] with Python's negative indices; 0 stands for the IndexError
    that the indices computed by [get_indexes] never cause. *)
Definition py_index (arr : list Q) (i : Z) : Q :=
  let n := Z.of_nat (length arr) in
  nth (Z.to_nat (if (i <? 0)%Z then n + i else i)) arr 0.

(** numpy's [_get_indexes]: the two neighbours of a virtual index, both set
    to the last element (index -1) at or above [n - 1] and to the first
    below 0. *)
Definition get_indexes (virtual_index : Q) (n : Z) : Z * Z :=
  let previous := Qfloor virtual_index in
  let next := (previous + 1)%Z in
  if Qle_bool (inject_Z (n - 1)) virtual_index then ((-1)%Z, (-1)%Z)
  else if Qlt_bool virtual_index 0 then (0%Z, 0%Z)
  else (previous, next).

(** Two's complement wrap-around of a 64-bit signed integer. *)
Definition wrap_int64 (z : Z) : Z := ((z + 2 ^ 63) mod 2 ^ 64 - 2 ^ 63)%Z.

(** [subtract(b, a)] in the dtype of the array: the difference of two
    [int64] entries, which are integers, wraps around; a floating-point
    difference is taken as exact. *)
Definition np_subtract (dt : np_dtype) (b a : Q) : Q :=
  match dt with
  | int64 => inject_Z (wrap_int64 (Qfloor b - Qfloor a))
  | _ => b - a
  end.

(** numpy's [_lerp]: the two algebraically equal forms, chosen by [t]; the
    difference of the two neighbours is taken in the dtype of the array,
    the rest in floating point. *)
Definition lerp (dt : np_dtype) (a b t : Q) : Q :=
  let diff_b_a := np_subtract dt b a in
  if Qle_bool (1 # 2) t then b - diff_b_a * (1 - t)
  else a + diff_b_a * t.

(** The interpolation step of numpy's [_quantile]: the value of the sorted
    array [arr] at a virtual index. *)
Definition quantile_at (dt : np_dtype) (arr : list Q) (virtual_index : Q)
  : Q :=
  let n := Z.of_nat (length arr) in
  let '(previous_index, next_index) := get_indexes virtual_index n in
  let gamma := virtual_index - inject_Z previous_index in
  lerp dt (py_index arr previous_index) (py_index arr next_index) gamma.

(** The virtual index of the linear method for the fraction [q / 100]. *)
Definition virtual_index_of (n : nat) (q : Q) : Q :=
  inject_Z (Z.of_nat n - 1) * (q / 100).

(** [np.percentile(a, q)] with the default method (linear) on an array of
    dtype [dt]: virtual index [(n - 1) * q / 100] in the sorted data,
    interpolated between its two neighbours. *)
Definition np_percentile (dt : np_dtype) (a : list Q) (q : Q) : Q :=
  let arr := np_sort a in
  quantile_at dt arr (virtual_index_of (length arr) q).

(** The differences of the values are representable in the dtype: an
    [int64] column holds integers of which no two differ by 2^63 or more,
    and the difference of two floating-point values is finite. *)
Definition differences_fit (dt : np_dtype) (l : list Q) : Prop :=
  match dt with
  | int64 =>
      Forall (fun v => v == inject_Z (Qfloor v)) l
      /\ (forall a b, In a l -> In b l ->
                      - inject_Z (2 ^ 63) <= b - a
                      /\ b - a < inject_Z (2 ^ 63))
  | _ =>
      forall a b, In a l -> In b l -> Qabs (b - a) <= inject_Z (2 ^ 1023)
  end.

(** The values convert to float64 without rounding: the integers of an
    [int64] column are at most 2^53 in magnitude. *)
Definition exact_in_float64 (dt : np_dtype) (l : list Q) : Prop :=
  match dt with
  | int64 => Forall (fun v => Qabs v <= inject_Z (2 ^ 53)) l
  | _ => True
  end.

(** Where the p-th percentile of [l] lies by every interpolation rule:
    between the two entries of the sorted values around the rank
    [(n - 1) * p / 100]. *)
Definition between_order_statistics (l : list Q) (p x : Q) : Prop :=
  exists s,
    Permutation l s
    /\ StronglySorted Qle s
    /\ (let rank := inject_Z (Z.of_nat (length l) - 1) * (p / 100) in
        let i := Z.to_nat (Qfloor rank) in
        nth i s 0 <= x
        /\ x <= nth (Nat.min (i + 1) (length l - 1)) s 0).

(** ** scipy: [stats.describe] *)

Module DescribeResult.

Record t : Type := mk {
  nobs : nat;
  minmax : Q * Q;
  mean : Q;
  variance : npfloat
}.

End DescribeResult.

Definition Qsum (l : list Q) : Q := fold_left Qplus l 0.

Definition np_min (x : Q) (l : list Q) : Q := fold_left Qmin l x.
Definition np_max (x : Q) (l : list Q) : Q := fold_left Qmax l x.

(** [stats.describe(a)]: refuses an empty input; the variance has
    [n - 1] in the denominator, so it is NaN for a single observation.
    The skewness and kurtosis of the result are not represented. *)
Definition stats_describe (a : list Q) : result DescribeResult.t :=
  match a with
  | [] => Raise (ValueError "The input must not be empty.")
  | x :: l =>
      let n := length a in
      let mean := Qsum a / inject_Z (Z.of_nat n) in
      let ss := Qsum (map (fun v => (v - mean) * (v - mean)) a) in
      Ok (DescribeResult.mk n (np_min x l, np_max x l) mean
            (np_true_divide ss (inject_Z (Z.of_nat n - 1))))
  end.

(** ** [descriptive_stats_numeric] *)

(** The dictionary returned for a numeric column.  The key "std" holds the
    square root of [variance], which leaves the rationals: the record keeps
    the radicand under [variance].  "skewness" and "kurtosis" are not
    represented. *)
Module NumericStats.

Record t : Type := mk {
  column : string;
  n : nat;
  min : Q;
  max : Q;
  mean : Q;
  variance : npfloat;
  median : Q;
  q1 : Q;
  q3 : Q;
  iqr : Q;
  lower_fence : Q;
  upper_fence : Q;
  n_outliers : nat
}.

End NumericStats.

(** The default of the parameter [tukey_factor]. *)
Definition tukey_factor_default : Q := 1.5.

(** The boolean mask [(data < lower_fence) | (data > upper_fence)]. *)
Definition outlier_mask (lower_fence upper_fence v : Q) : bool :=
  Qlt_bool v lower_fence || Qlt_bool upper_fence v.




Definition descriptive_stats_numeric (data : Series Q) (tukey_factor : Q)
  : result NumericStats.t :=
  desc <- stats_describe (values data) ;;
  let percentiles :=
    map (np_percentile (dtype data) (values data)) [25; 50; 75] in
  let q1 := nth 0 percentiles 0 in
  let q3 := nth 2 percentiles 0 in
  let iqr := q3 - q1 in
  let lower_fence := q1 - tukey_factor * iqr in
  let upper_fence := q3 + tukey_factor * iqr in
  let outliers := filter (outlier_mask lower_fence upper_fence) (values data) in
  Ok (NumericStats.mk
        (name data)
        (DescribeResult.nobs desc)
        (fst (DescribeResult.minmax desc))
        (snd (DescribeResult.minmax desc))
        (DescribeResult.mean desc)
        (DescribeResult.variance desc)
        (nth 1 percentiles 0)
        q1
        q3
        iqr
        lower_fence
        upper_fence
        (length outliers)).

(** ** pandas: [value_counts], [idxmax], [max] *)

(** One more occurrence of [v] in a frequency table kept in order of first
    appearance. *)
Fixpoint count_add (v : string) (vc : list (string * nat))
  : list (string * nat) :=
  match vc with
  | [] => [(v, 1%nat)]
  | (w, c) :: rest =>
      if String.eqb v w then (w, S c) :: rest
      else (w, c) :: count_add v rest
  end.

Definition hash_counts (l : list string) : list (string * nat) :=
  fold_left (fun vc v => count_add v vc) l [].

(** The count a frequency table records for [v], 0 when [v] is not a key. *)
Fixpoint count_of (vc : list (string * nat)) (v : string) : nat :=
  match vc with
  | [] => 0%nat
  | (w, c) :: rest => if String.eqb v w then c else count_of rest v
  end.

(** Insertion into a table ordered by descending count, before the first
    entry whose count is not larger. *)
Fixpoint insert_desc (x : string * nat) (l : list (string * nat))
  : list (string * nat) :=
  match l with
  | [] => [x]
  | y :: l' =>
      if (snd y <=? snd x)%nat then x :: l else y :: insert_desc x l'
  end.

Definition sort_values_desc (vc : list (string * nat))
  : list (string * nat) :=
  fold_right insert_desc [] vc.

(** The order of a table sorted by descending count. *)
Definition count_ge (x y : string * nat) : Prop := (snd y <= snd x)%nat.

(** [data.value_counts()]: the frequency table of the values, sorted by
    descending count.  Equal counts keep their order of first appearance
    here; no property below depends on how ties are ordered. *)
Definition value_counts (data : Series string) : list (string * nat) :=
  sort_values_desc (hash_counts (values data)).

(** The first entry whose count is maximal. *)
Definition argmax_entry (x : string * nat) (l : list (string * nat))
  : string * nat :=
  fold_left (fun best y => if (snd best <? snd y)%nat then y else best) l x.

(** [value_counts.idxmax()]: raises on an empty table. *)
Definition idxmax (vc : list (string * nat)) : result string :=
  match vc with
  | [] => Raise (ValueError "attempt to get argmax of an empty sequence")
  | x :: l => Ok (fst (argmax_entry x l))
  end.

(** [value_counts.max()] of a non-empty table. *)
Definition series_max (vc : list (string * nat)) : nat :=
  fold_left Nat.max (map snd vc) 0%nat.

(** ** [descriptive_stats_categorical] *)

Module CategoricalStats.

Record t : Type := mk {
  column : string;
  n : nat;
  n_unique : nat;
  mode : string;
  mode_count : nat;
  second_most_common : option string;
  second_most_common_count : option nat
}.

End CategoricalStats.

Definition descriptive_stats_categorical (data : Series string)
  : result CategoricalStats.t :=
  let value_counts := value_counts data in
  mode <- idxmax value_counts ;;
  Ok (CategoricalStats.mk
        (name data)
        (len data)
        (nunique String.eqb (values data))
        mode
        (series_max value_counts)
        (if (1 <? length value_counts)%nat
         then option_map fst (nth_error value_counts 1) else None)
        (if (1 <? length value_counts)%nat
         then option_map snd (nth_error value_counts 1) else None)).

(** ** Data frames *)

(** A column is a labelled series of one of the two kinds the code
    distinguishes with [is_numeric_dtype] and [select_dtypes]: a numeric
    column has dtype [int64] (and then no missing entry) or [float64], an
    object column dtype [object].  Column labels are taken to be distinct,
    so that [df[column]] is the column itself. *)
Inductive Column : Type :=
| NumericColumn (s : Series (option Q))
| ObjectColumn (s : Series (option string)).

Definition DataFrame : Type := list Column.

Definition label (c : Column) : string :=
  match c with
  | NumericColumn s => name s
  | ObjectColumn s => name s
  end.

Definition columns (df : DataFrame) : list string := map label df.

(** [df[column].dtype] *)
Definition column_dtype (c : Column) : np_dtype :=
  match c with
  | NumericColumn s => dtype s
  | ObjectColumn s => dtype s
  end.

(** [len(df[column])] *)
Definition column_len (c : Column) : nat :=
  match c with
  | NumericColumn s => len s
  | ObjectColumn s => len s
  end.

(** [df[column].isnull().sum()] *)
Definition column_isnull_sum (c : Column) : nat :=
  match c with
  | NumericColumn s => isnull_sum s
  | ObjectColumn s => isnull_sum s
  end.

(** [df[column].count()]: the number of non-missing entries, which is the
    length of [df[column].dropna()]. *)
Definition column_count (c : Column) : nat :=
  match c with
  | NumericColumn s => len (dropna s)
  | ObjectColumn s => len (dropna s)
  end.

(** [df[column].nunique()] *)
Definition column_nunique (c : Column) : nat :=
  match c with
  | NumericColumn s => nunique Qeq_bool (dropna_list (values s))
  | ObjectColumn s => nunique String.eqb (dropna_list (values s))
  end.

(** The number of rows, [len(df)]. *)
Definition nrows (df : DataFrame) : nat :=
  match df with
  | [] => 0%nat
  | c :: _ => column_len c
  end.

(** All columns of a frame have its number of rows. *)
Definition wf_frame (df : DataFrame) : Prop :=
  Forall (fun c => column_len c = nrows df) df.

Inductive cell : Type :=
| NumCell (q : Q)
| StrCell (s : string)
| NACell.

Definition cell_eqb (a b : cell) : bool :=
  match a, b with
  | NumCell x, NumCell y => Qeq_bool x y
  | StrCell x, StrCell y => String.eqb x y
  | NACell, NACell => true
  | _, _ => false
  end.

Definition cell_of {A : Type} (f : A -> cell) (c : option A) : cell :=
  match c with
  | Some v => f v
  | None => NACell
  end.

Definition column_cells (c : Column) : list cell :=
  match c with
  | NumericColumn s => map (cell_of NumCell) (values s)
  | ObjectColumn s => map (cell_of StrCell) (values s)
  end.

Definition row (df : DataFrame) (i : nat) : list cell :=
  map (fun c => nth i (column_cells c) NACell) df.

Fixpoint row_eqb (r1 r2 : list cell) : bool :=
  match r1, r2 with
  | [], [] => true
  | a :: r1', b :: r2' => cell_eqb a b && row_eqb r1' r2'
  | _, _ => false
  end.

(** [df.duplicated().sum()]: the rows equal to an earlier row. *)
Fixpoint duplicated_from (seen rows : list (list cell)) : nat :=
  match rows with
  | [] => 0%nat
  | r :: rows' =>
      ((if existsb (row_eqb r) seen then 1 else 0)
       + duplicated_from (r :: seen) rows')%nat
  end.

Definition duplicated_sum (df : DataFrame) : nat :=
  duplicated_from [] (map (row df) (seq 0 (nrows df))).

(** ** [overview_df] *)

Module Overview.

Record t : Type := mk {
  column : string;
  types : np_dtype;
  unique_data : nat;
  missing_value : nat;
  missing_percentage : npfloat;
  duplicated : nat
}.

End Overview.

Definition Qnat (k : nat) : Q := inject_Z (Z.of_nat k).

(** [round(missing_count / value_count * 100, 2)] *)
Definition missing_percentage_of (missing_count value_count : nat) : npfloat :=
  np_round
    (np_multiply (np_true_divide (Qnat missing_count) (Qnat value_count))
       (Finite 100))
    2.

(** A percentage that is a number of the interval from 0 to 100. *)
Definition percentage_in_range (p : npfloat) : Prop :=
  exists q, p = Finite q /\ 0 <= q /\ q <= 100.

Definition overview_df (df : DataFrame) : list Overview.t :=
  map (fun c =>
         let types := column_dtype c in
         let unique_data := column_nunique c in
         let missing_count := column_isnull_sum c in
         let value_count := column_len c in
         let missing_percentage :=
           missing_percentage_of missing_count value_count in
         let duplicated := duplicated_sum df in
         Overview.mk (label c) types unique_data missing_count
           missing_percentage duplicated)
      df.

(** ** The per-kind table loops *)

Fixpoint mapM {A B : Type} (f : A -> result B) (l : list A)
  : result (list B) :=
  match l with
  | [] => Ok []
  | x :: l' =>
      y <- f x ;;
      ys <- mapM f l' ;;
      Ok (y :: ys)
  end.

Definition numeric_columns (df : DataFrame) : list (Series (option Q)) :=
  flat_map (fun c => match c with
                     | NumericColumn s => [s]
                     | ObjectColumn _ => []
                     end) df.

Definition object_columns (df : DataFrame) : list (Series (option string)) :=
  flat_map (fun c => match c with
                     | NumericColumn _ => []
                     | ObjectColumn s => [s]
                     end) df.

Definition analyze_dataset_numerical (df : DataFrame)
  : result (list NumericStats.t) :=
  mapM (fun s => descriptive_stats_numeric (dropna s) tukey_factor_default)
       (numeric_columns df).

Definition analyze_dataset_categorical (df : DataFrame)
  : result (list CategoricalStats.t) :=
  mapM (fun s => descriptive_stats_categorical (dropna s))
       (object_columns df).

(** ** [analyze_dataset] *)

(** The statistics dictionary of one column: one of the two shapes. *)
Inductive stats : Type :=
| NumericDict (r : NumericStats.t)
| CategoricalDict (r : CategoricalStats.t).

(** [stats.get(key)] for a key of the numeric dictionary. *)
Definition get_numeric {A : Type} (f : NumericStats.t -> A) (s : stats)
  : option A :=
  match s with
  | NumericDict r => Some (f r)
  | CategoricalDict _ => None
  end.

(** [stats.get(key)] for a key of the categorical dictionary. *)
Definition get_categorical {A : Type} (f : CategoricalStats.t -> A)
  (s : stats) : option A :=
  match s with
  | NumericDict _ => None
  | CategoricalDict r => Some (f r)
  end.

(** [stats.get("n")]: both dictionaries have the key. *)
Definition get_n (s : stats) : option nat :=
  match s with
  | NumericDict r => Some (NumericStats.n r)
  | CategoricalDict r => Some (CategoricalStats.n r)
  end.

(** [stats.get(key, default)] *)
Definition get_or {A : Type} (o : option A) (default : A) : A :=
  match o with
  | Some v => v
  | None => default
  end.

Definition join {A : Type} (o : option (option A)) : option A :=
  match o with
  | Some v => v
  | None => None
  end.

(** The combined dictionary of one column; as in [NumericStats], the
    radicand of "std" is kept and "skewness" and "kurtosis" are not
    represented. *)
Module Combined.

Record t : Type := mk {
  column : string;
  n : nat;
  min : option Q;
  max : option Q;
  mean : option Q;
  variance : option npfloat;
  median : option Q;
  q1 : option Q;
  q3 : option Q;
  iqr : option Q;
  lower_fence : option Q;
  upper_fence : option Q;
  n_outliers : option nat;
  n_unique : nat;
  mode : option string;
  mode_count : option nat;
  second_most_common : option string;
  second_most_common_count : option nat;
  unique_data : nat;
  missing_value : nat;
  missing_percentage : npfloat;
  duplicated : nat
}.

End Combined.

(** The statistics step of the loop of [analyze_dataset]: the dispatch on
    the column's dtype, on the column without its missing entries. *)
Definition column_stats (c : Column) : result stats :=
  match c with
  | NumericColumn s =>
      r <- descriptive_stats_numeric (dropna s) tukey_factor_default ;;
      Ok (NumericDict r)
  | ObjectColumn s =>
      r <- descriptive_stats_categorical (dropna s) ;;
      Ok (CategoricalDict r)
  end.

(** The body of the loop of [analyze_dataset] for one column. *)
Definition analyze_column (df : DataFrame) (c : Column)
  : result Combined.t :=
  stats <- column_stats c ;;
  let unique_data := column_nunique c in
  let missing_count := column_isnull_sum c in
  let value_count := column_len c in
  let missing_percentage := missing_percentage_of missing_count value_count in
  let duplicated := duplicated_sum df in
  Ok (Combined.mk
        (label c)
        (get_or (get_n stats) value_count)
        (get_numeric NumericStats.min stats)
        (get_numeric NumericStats.max stats)
        (get_numeric NumericStats.mean stats)
        (get_numeric NumericStats.variance stats)
        (get_numeric NumericStats.median stats)
        (get_numeric NumericStats.q1 stats)
        (get_numeric NumericStats.q3 stats)
        (get_numeric NumericStats.iqr stats)
        (get_numeric NumericStats.lower_fence stats)
        (get_numeric NumericStats.upper_fence stats)
        (get_numeric NumericStats.n_outliers stats)
        (get_or (get_categorical CategoricalStats.n_unique stats) unique_data)
        (get_categorical CategoricalStats.mode stats)
        (get_categorical CategoricalStats.mode_count stats)
        (join (get_categorical CategoricalStats.second_most_common stats))
        (join (get_categorical CategoricalStats.second_most_common_count stats))
        unique_data
        missing_count
        missing_percentage
        duplicated).

Definition analyze_dataset (df : DataFrame) : result (list Combined.t) :=
  mapM (analyze_column df) df.

(** ** Sample tables *)

(** Three rows, a numeric and an object column, one missing entry each. *)
Definition sample_frame : DataFrame :=
  [NumericColumn (mkSeries "a" float64 [Some 1; None; Some 1]);
   ObjectColumn (mkSeries "b" object [Some "x"; None; Some "x"])].


(** The rows [analyze_dataset] returns for [sample_frame]. *)
Definition sample_rows : list Combined.t :=
  Eval vm_compute in
    match analyze_dataset sample_frame with
    | Ok rows => rows
    | Raise _ => []
    end.

(** A table with one column and no row. *)
Definition empty_frame : DataFrame :=
  [NumericColumn (mkSeries "a" float64 [])].

(** An [int64] column whose two values differ by more than 2^63. *)
Definition wide_int64_series : Series Q :=
  mkSeries "x" int64 [-5000000000000000000; 5000000000000000000].

(** * Properties *)

(** ** Comparisons and results *)

Lemma Qlt_bool_iff (x y : Q) : Qlt_bool x y = true <-> x < y.
Proof.
  unfold Qlt_bool. rewrite negb_true_iff.
  destruct (Qle_bool y x) eqn:E.
  - apply Qle_bool_iff in E. split; [discriminate | intro; lra].
  - split; [intros _ | reflexivity].
    destruct (Qlt_le_dec x y) as [H | H]; [exact H |].
    apply Qle_bool_iff in H. congruence.
Qed.

Lemma Qlt_bool_false (x y : Q) : Qlt_bool x y = false <-> y <= x.
Proof.
  unfold Qlt_bool. rewrite negb_false_iff. apply Qle_bool_iff.
Qed.

Lemma Qle_bool_false (x y : Q) : Qle_bool x y = false <-> y < x.
Proof.
  rewrite <- Qlt_bool_iff. unfold Qlt_bool.
  destruct (Qle_bool x y); simpl; intuition congruence.
Qed.

(** ** Sorting *)

Lemma insert_length (x : Q) (l : list Q) :
  length (insert x l) = S (length l).
Proof.
  induction l as [| y l IH]; simpl; [reflexivity |].
  destruct (Qle_bool x y); simpl; congruence.
Qed.

Lemma np_sort_length (a : list Q) : length (np_sort a) = length a.
Proof.
  induction a as [| x a IH]; simpl; [reflexivity |].
  rewrite insert_length. congruence.
Qed.

Lemma insert_perm (x : Q) (l : list Q) : Permutation (x :: l) (insert x l).
Proof.
  induction l as [| y l IH]; simpl; [apply Permutation_refl |].
  destruct (Qle_bool x y); [apply Permutation_refl |].
  eapply perm_trans; [apply perm_swap | apply perm_skip, IH].
Qed.

Lemma np_sort_perm (a : list Q) : Permutation a (np_sort a).
Proof.
  induction a as [| x a IH]; simpl; [constructor |].
  eapply perm_trans; [apply perm_skip, IH | apply insert_perm].
Qed.

Lemma insert_sorted (x : Q) (l : list Q) :
  StronglySorted Qle l -> StronglySorted Qle (insert x l).
Proof.
  induction 1 as [| y l Hs IH Hy]; simpl.
  - repeat constructor.
  - destruct (Qle_bool x y) eqn:E.
    + apply Qle_bool_iff in E.
      constructor; [constructor; assumption |].
      constructor; [exact E |].
      eapply Forall_impl; [| exact Hy].
      intros z Hz. simpl in Hz. lra.
    + apply Qle_bool_false in E.
      constructor; [exact IH |].
      apply (Permutation_Forall (insert_perm x l)).
      constructor; [lra | exact Hy].
Qed.

Lemma np_sort_sorted (a : list Q) : StronglySorted Qle (np_sort a).
Proof.
  induction a as [| x a IH]; simpl; [constructor |].
  apply insert_sorted, IH.
Qed.

(** In a sorted list the entries grow with the position. *)
Lemma sorted_nth_le (l : list Q) :
  StronglySorted Qle l ->
  forall i j, (i <= j < length l)%nat -> nth i l 0 <= nth j l 0.
Proof.
  induction 1 as [| x l Hs IH Hx]; intros i j Hij; simpl in Hij; [lia |].
  destruct i as [| i], j as [| j]; simpl; try lia.
  - lra.
  - rewrite Forall_forall in Hx. apply Hx, nth_In. lia.
  - apply IH. lia.
Qed.

(** ** Percentiles *)

Lemma wrap_int64_small (z : Z) :
  (- 2 ^ 63 <= z < 2 ^ 63)%Z -> wrap_int64 z = z.
Proof.
  intros H. unfold wrap_int64.
  change (2 ^ 63)%Z with 9223372036854775808%Z in *.
  change (2 ^ 64)%Z with 18446744073709551616%Z.
  rewrite Z.mod_small by lia. lia.
Qed.

Lemma np_subtract_same (dt : np_dtype) (a : Q) : np_subtract dt a a == 0.
Proof.
  destruct dt; simpl; [rewrite Z.sub_diag; reflexivity | ring | ring].
Qed.

(** Where the differences fit, the subtraction of the dtype is the exact
    one. *)
Lemma np_subtract_exact (dt : np_dtype) (l : list Q) (a b : Q) :
  differences_fit dt l -> In a l -> In b l -> np_subtract dt b a == b - a.
Proof.
  destruct dt; simpl; intros Hfit Ha Hb; try reflexivity.
  destruct Hfit as [Hint Hd].
  rewrite Forall_forall in Hint.
  pose proof (Hint a Ha) as Ea. pose proof (Hint b Hb) as Eb.
  destruct (Hd a b Ha Hb) as [Hlo Hhi].
  assert (Ed : inject_Z (Qfloor b - Qfloor a) == b - a).
  { unfold Z.sub. rewrite inject_Z_plus, inject_Z_opp. lra. }
  rewrite <- Ed in Hlo, Hhi.
  rewrite <- inject_Z_opp in Hlo.
  rewrite <- Zle_Qle in Hlo. rewrite <- Zlt_Qlt in Hhi.
  rewrite wrap_int64_small by (split; assumption).
  exact Ed.
Qed.

Lemma differences_fit_Permutation (dt : np_dtype) (l l' : list Q) :
  Permutation l l' -> differences_fit dt l -> differences_fit dt l'.
Proof.
  intros Hp. pose proof (Permutation_sym Hp) as Hp'.
  destruct dt; simpl.
  - intros [Hint Hd]. split; [apply (Permutation_Forall Hp), Hint |].
    intros a b Ha Hb.
    apply Hd; eapply Permutation_in; eassumption.
  - intros Hd a b Ha Hb. apply Hd; eapply Permutation_in; eassumption.
  - intros Hd a b Ha Hb. apply Hd; eapply Permutation_in; eassumption.
Qed.

Lemma lerp_eq (dt : np_dtype) (a b t : Q) :
  np_subtract dt b a == b - a -> lerp dt a b t == a + (b - a) * t.
Proof.
  intros E. unfold lerp. destruct (Qle_bool (1 # 2) t); rewrite E; ring.
Qed.

Lemma lerp_same (dt : np_dtype) (a t : Q) : lerp dt a a t == a.
Proof.
  unfold lerp.
  destruct (Qle_bool (1 # 2) t); rewrite np_subtract_same; ring.
Qed.

(** At or above the last position the value is the last entry. *)
Lemma quantile_at_last (dt : np_dtype) (arr : list Q) (v : Q) :
  arr <> [] ->
  inject_Z (Z.of_nat (length arr) - 1) <= v ->
  quantile_at dt arr v == nth (length arr - 1) arr 0.
Proof.
  intros Hne Hv. unfold quantile_at, get_indexes.
  apply Qle_bool_iff in Hv. rewrite Hv.
  rewrite lerp_same. unfold py_index.
  change (-1 <? 0)%Z with true. cbv iota.
  assert (Hn : (0 < length arr)%nat) by (destruct arr; simpl; [congruence | lia]).
  replace (Z.to_nat (Z.of_nat (length arr) + -1)) with (length arr - 1)%nat by lia.
  reflexivity.
Qed.

(** Strictly inside, where the differences fit, the value interpolates
    between the two neighbours of the virtual index. *)
Lemma quantile_at_inside (dt : np_dtype) (arr : list Q) (v : Q) :
  differences_fit dt arr ->
  0 <= v ->
  v < inject_Z (Z.of_nat (length arr) - 1) ->
  let i := Z.to_nat (Qfloor v) in
  (i + 1 < length arr)%nat /\
  inject_Z (Z.of_nat i) <= v < inject_Z (Z.of_nat i) + 1 /\
  quantile_at dt arr v
  == nth i arr 0 + (nth (i + 1) arr 0 - nth i arr 0) * (v - inject_Z (Z.of_nat i)).
Proof.
  intros Hfit H0 Hv i.
  assert (Hf0 : (0 <= Qfloor v)%Z).
  { change 0%Z with (Qfloor 0). apply Qfloor_resp_le, H0. }
  assert (Hfl : inject_Z (Qfloor v) <= v) by apply Qfloor_le.
  assert (Hfu : v < inject_Z (Qfloor v + 1)) by apply Qlt_floor.
  assert (Hi : Z.of_nat i = Qfloor v) by (unfold i; lia).
  assert (Hlt : (Qfloor v < Z.of_nat (length arr) - 1)%Z).
  { rewrite Zlt_Qlt. eapply Qle_lt_trans; [exact Hfl | exact Hv]. }
  assert (Hlen : (i + 1 < length arr)%nat) by lia.
  split; [exact Hlen |].
  split.
  { rewrite Hi. rewrite inject_Z_plus in Hfu.
    change (inject_Z 1) with 1 in Hfu. split; assumption. }
  unfold quantile_at, get_indexes.
  apply Qle_bool_false in Hv. rewrite Hv.
  apply Qlt_bool_false in H0. rewrite H0.
  unfold py_index.
  destruct (Qfloor v <? 0)%Z eqn:E1; [apply Z.ltb_lt in E1; lia |].
  destruct (Qfloor v + 1 <? 0)%Z eqn:E2; [apply Z.ltb_lt in E2; lia |].
  replace (Z.to_nat (Qfloor v + 1)) with (i + 1)%nat by lia.
  fold i. rewrite lerp_eq.
  - rewrite Hi. reflexivity.
  - apply (np_subtract_exact dt arr); [exact Hfit | |]; apply nth_In; lia.
Qed.

(** The value at a virtual index lies between the entries around it. *)
Lemma quantile_at_between (dt : np_dtype) (arr : list Q) (v : Q) :
  differences_fit dt arr ->
  StronglySorted Qle arr ->
  0 <= v ->
  v < inject_Z (Z.of_nat (length arr) - 1) ->
  nth (Z.to_nat (Qfloor v)) arr 0 <= quantile_at dt arr v
  /\ quantile_at dt arr v <= nth (Z.to_nat (Qfloor v) + 1) arr 0.
Proof.
  intros Hfit Hs H0 Hv.
  destruct (quantile_at_inside dt arr v Hfit H0 Hv) as (Hi & Hb & Heq).
  set (i := Z.to_nat (Qfloor v)) in *.
  assert (Hab : nth i arr 0 <= nth (i + 1) arr 0)
    by (apply sorted_nth_le; [exact Hs | lia]).
  set (a := nth i arr 0) in *. set (b := nth (i + 1) arr 0) in *.
  set (t := v - inject_Z (Z.of_nat i)) in *.
  assert (Ht : 0 <= t < 1) by (unfold t; lra).
  assert (H1 : 0 <= (b - a) * t) by (apply Qmult_le_0_compat; lra).
  assert (H2 : 0 <= (b - a) * (1 - t)) by (apply Qmult_le_0_compat; lra).
  rewrite Heq. split; lra.
Qed.


Lemma np_sort_not_nil (a : list Q) : a <> [] -> np_sort a <> [].
Proof.
  intros Hne E. apply Hne. apply length_zero_iff_nil.
  rewrite <- np_sort_length, E. reflexivity.
Qed.

Lemma virtual_index_of_monotone (n : nat) (p q : Q) :
  (0 < n)%nat -> 0 <= p -> p <= q ->
  0 <= virtual_index_of n p /\ virtual_index_of n p <= virtual_index_of n q.
Proof.
  intros Hn Hp Hpq. unfold virtual_index_of, Qdiv.
  change (/ 100) with (1 # 100).
  assert (Hm : 0 <= inject_Z (Z.of_nat n - 1)).
  { change 0 with (inject_Z 0). rewrite <- Zle_Qle. lia. }
  set (m := inject_Z (Z.of_nat n - 1)) in *.
  assert (H1 : 0 <= m * p) by (apply Qmult_le_0_compat; lra).
  assert (H2 : 0 <= m * (q - p)) by (apply Qmult_le_0_compat; lra).
  split; lra.
Qed.


(** Where the differences fit, a percentile lies between the entries of
    the sorted data around its rank. *)
Lemma np_percentile_between (dt : np_dtype) (a : list Q) (p : Q) :
  a <> [] -> differences_fit dt a -> 0 <= p -> p <= 100 ->
  between_order_statistics a p (np_percentile dt a p).
Proof.
  intros Hne Hfit Hp0 Hp1.
  exists (np_sort a).
  split; [apply np_sort_perm |]. split; [apply np_sort_sorted |].
  unfold np_percentile. rewrite np_sort_length.
  fold (virtual_index_of (length a) p).
  assert (Hn : (0 < length a)%nat) by (destruct a; simpl; [congruence | lia]).
  destruct (virtual_index_of_monotone _ p 100 Hn Hp0 Hp1) as [H0 Hle].
  assert (H100 : virtual_index_of (length a) 100
                 == inject_Z (Z.of_nat (length a) - 1)).
  { unfold virtual_index_of. field. }
  rewrite H100 in Hle.
  set (v := virtual_index_of (length a) p) in *. clearbody v.
  assert (Hfit' : differences_fit dt (np_sort a))
    by (apply (differences_fit_Permutation dt a), Hfit; apply np_sort_perm).
  pose proof (np_sort_length a) as Hlen.
  cbv zeta.
  destruct (Qlt_le_dec v (inject_Z (Z.of_nat (length a) - 1))) as [Hv | Hv].
  - rewrite <- Hlen in Hv.
    destruct (quantile_at_inside dt _ v Hfit' H0 Hv) as (Hi & _ & _).
    destruct (quantile_at_between dt _ v Hfit' (np_sort_sorted a) H0 Hv)
      as [Hlo Hup].
    rewrite Hlen in Hi.
    replace (Nat.min (Z.to_nat (Qfloor v) + 1) (length a - 1))
      with (Z.to_nat (Qfloor v) + 1)%nat by lia.
    split; assumption.
  - assert (Ev : v == inject_Z (Z.of_nat (length a) - 1))
      by (apply Qle_antisym; assumption).
    assert (Ef : Qfloor v = (Z.of_nat (length a) - 1)%Z).
    { rewrite Ev. apply Qfloor_Z. }
    rewrite <- Hlen in Hv.
    rewrite (quantile_at_last dt _ v (np_sort_not_nil a Hne) Hv).
    rewrite Hlen, Ef.
    replace (Z.to_nat (Z.of_nat (length a) - 1)) with (length a - 1)%nat
      by lia.
    replace (Nat.min (length a - 1 + 1) (length a - 1))
      with (length a - 1)%nat by lia.
    split; apply Qle_refl.
Qed.

(** ** [descriptive_stats_numeric] *)

Lemma stats_describe_ok (a : list Q) :
  a <> [] ->
  exists d, stats_describe a = Ok d /\ DescribeResult.nobs d = length a.
Proof.
  intros Hne. destruct a as [| x l]; [congruence |].
  eexists. split; reflexivity.
Qed.

(** On a non-empty column the function returns, and every quantile field of
    the record is the expression the code computes it with. *)
Lemma descriptive_stats_numeric_ok (data : Series Q) (k : Q) :
  values data <> [] ->
  exists r,
    descriptive_stats_numeric data k = Ok r
    /\ NumericStats.column r = name data
    /\ NumericStats.n r = length (values data)
    /\ NumericStats.q1 r = np_percentile (dtype data) (values data) 25
    /\ NumericStats.median r
       = np_percentile (dtype data) (values data) 50
    /\ NumericStats.q3 r = np_percentile (dtype data) (values data) 75
    /\ NumericStats.iqr r = NumericStats.q3 r - NumericStats.q1 r
    /\ NumericStats.lower_fence r
       = NumericStats.q1 r - k * NumericStats.iqr r
    /\ NumericStats.upper_fence r
       = NumericStats.q3 r + k * NumericStats.iqr r
    /\ NumericStats.n_outliers r
       = length (filter (outlier_mask (NumericStats.lower_fence r)
                           (NumericStats.upper_fence r)) (values data)).
Proof.
  intros Hne. destruct (stats_describe_ok _ Hne) as (d & Hd & Hn).
  unfold descriptive_stats_numeric. rewrite Hd. simpl.
  eexists. split; [reflexivity |]. simpl.
  repeat split; assumption.
Qed.

Lemma descriptive_stats_numeric_empty (data : Series Q) (k : Q) :
  values data = [] ->
  descriptive_stats_numeric data k
  = Raise (ValueError "The input must not be empty.").
Proof.
  intros E. unfold descriptive_stats_numeric. rewrite E. reflexivity.
Qed.



(** A column of integers between [lo] and [hi] with [hi - lo] below 2^63
    has differences that fit, whatever its dtype. *)
Lemma differences_fit_of_bounds (dt : np_dtype) (l : list Q) (lo hi : Q) :
  Forall (fun v => v == inject_Z (Qfloor v) /\ lo <= v /\ v <= hi) l ->
  hi - lo < inject_Z (2 ^ 63) ->
  differences_fit dt l.
Proof.
  intros Hall Hspan. rewrite Forall_forall in Hall.
  assert (Hd : forall a b, In a l -> In b l ->
                 - inject_Z (2 ^ 63) <= b - a /\ b - a < inject_Z (2 ^ 63)).
  { intros a b Ha Hb.
    destruct (Hall a Ha) as (_ & Ha1 & Ha2).
    destruct (Hall b Hb) as (_ & Hb1 & Hb2). split; lra. }
  assert (Hbig : inject_Z (2 ^ 63) <= inject_Z (2 ^ 1023)).
  { rewrite <- Zle_Qle. vm_compute. discriminate. }
  destruct dt; unfold differences_fit.
  - split; [| exact Hd]. apply Forall_forall. intros v Hv. apply (Hall v Hv).
  - intros a b Ha Hb. destruct (Hd a b Ha Hb).
    apply Qabs_Qle_condition. split; lra.
  - intros a b Ha Hb. destruct (Hd a b Ha Hb).
    apply Qabs_Qle_condition. split; lra.
Qed.

Ltac small_integers :=
  repeat constructor; vm_compute; try reflexivity; try discriminate.

(** C1, for a column whose differences fit and whose integers convert to
    float64 exactly: the function returns a record with
    lower_fence = q1 - k * iqr and upper_fence = q3 + k * iqr, where
    iqr = q3 - q1 and q1, q3 are the values of np.percentile at 25 and 75,
    which lie between the entries of the sorted column around the ranks
    (n - 1) / 4 and 3 (n - 1) / 4, where the 25th and 75th percentiles of
    the input lie; the default factor is 1.5. *)
Theorem fences_from_quartiles (data : Series Q) (k : Q) :
  values data <> [] ->
  differences_fit (dtype data) (values data) ->
  exact_in_float64 (dtype data) (values data) ->
  exists r,
    descriptive_stats_numeric data k = Ok r
    /\ NumericStats.q1 r = np_percentile (dtype data) (values data) 25
    /\ NumericStats.q3 r = np_percentile (dtype data) (values data) 75
    /\ between_order_statistics (values data) 25 (NumericStats.q1 r)
    /\ between_order_statistics (values data) 75 (NumericStats.q3 r)
    /\ NumericStats.iqr r = NumericStats.q3 r - NumericStats.q1 r
    /\ NumericStats.lower_fence r
       = NumericStats.q1 r - k * NumericStats.iqr r
    /\ NumericStats.upper_fence r
       = NumericStats.q3 r + k * NumericStats.iqr r
    /\ (k = tukey_factor_default ->
        NumericStats.lower_fence r
        == NumericStats.q1 r - (3 # 2) * NumericStats.iqr r
        /\ NumericStats.upper_fence r
           == NumericStats.q3 r + (3 # 2) * NumericStats.iqr r).
Proof.
  intros Hne Hfit _.
  destruct (descriptive_stats_numeric_ok data k Hne)
    as (r & Hr & _ & _ & Hq1 & _ & Hq3 & Hiqr & Hlo & Hup & _).
  exists r. do 3 (split; [assumption |]).
  split; [rewrite Hq1; apply np_percentile_between; [exact Hne | exact Hfit | lra | lra] |].
  split; [rewrite Hq3; apply np_percentile_between; [exact Hne | exact Hfit | lra | lra] |].
  do 3 (split; [assumption |]).
  intros ->. rewrite Hlo, Hup. unfold tukey_factor_default. split; ring.
Qed.

Lemma fences_from_quartiles_witness :
  exists r,
    descriptive_stats_numeric (mkSeries "x" int64 [4; 1; 3; 2]) 2 = Ok r
    /\ between_order_statistics [4; 1; 3; 2] 25 (NumericStats.q1 r)
    /\ NumericStats.lower_fence r
       = NumericStats.q1 r - 2 * NumericStats.iqr r.
Proof.
  destruct (fences_from_quartiles (mkSeries "x" int64 [4; 1; 3; 2]) 2)
    as (r & Hr & _ & _ & Hb & _ & _ & Hlo & _).
  - simpl. discriminate.
  - apply (differences_fit_of_bounds int64 _ 1 4); small_integers.
  - unfold exact_in_float64. simpl dtype. cbv iota. small_integers.
  - exists r. repeat split; assumption.
Defined.

(** C1 as stated fails: the difference of the two values of an int64
    column overflows inside np.percentile, and q1 comes out below every
    value of the column, where no 25th percentile lies. *)
Lemma quartile_below_data_on_wide_int64 :
  ~ (forall (data : Series Q) (k : Q),
       values data <> [] ->
       exists r,
         descriptive_stats_numeric data k = Ok r
         /\ between_order_statistics (values data) 25 (NumericStats.q1 r)
         /\ between_order_statistics (values data) 75 (NumericStats.q3 r)
         /\ NumericStats.iqr r = NumericStats.q3 r - NumericStats.q1 r
         /\ NumericStats.lower_fence r
            = NumericStats.q1 r - k * NumericStats.iqr r
         /\ NumericStats.upper_fence r
            = NumericStats.q3 r + k * NumericStats.iqr r).
Proof.
  intros H.
  destruct (H wide_int64_series tukey_factor_default)
    as (r & Hr & (s & Hp & _ & Hlo & _) & _).
  { simpl. discriminate. }
  assert (Hq1 : NumericStats.q1 r == - 7111686018427387904).
  { vm_compute in Hr. injection Hr as <-. vm_compute. reflexivity. }
  assert (Hin : In (nth 0 s 0) (values wide_int64_series)).
  { apply (Permutation_in _ (Permutation_sym Hp)). apply nth_In.
    rewrite <- (Permutation_length Hp). simpl. lia. }
  change (Z.to_nat (Qfloor _)) with 0%nat in Hlo.
  rewrite Hq1 in Hlo.
  simpl in Hin. destruct Hin as [E | [E | []]]; rewrite <- E in Hlo;
    vm_compute in Hlo; apply Hlo; reflexivity.
Qed.



(** C3, as the code has it: the fence factor is not validated.  With a
    negative k the function raises nothing on a non-empty column: it
    returns the record with lower_fence = q1 - k * iqr and
    upper_fence = q3 + k * iqr; on an empty column it raises the
    ValueError of the empty input, as it does for every k. *)
Theorem negative_factor_not_rejected (data : Series Q) (k : Q) :
  k < 0 ->
  (values data <> [] ->
   exists r,
     descriptive_stats_numeric data k = Ok r
     /\ NumericStats.lower_fence r
        = NumericStats.q1 r - k * NumericStats.iqr r
     /\ NumericStats.upper_fence r
        = NumericStats.q3 r + k * NumericStats.iqr r)
  /\ (values data = [] ->
      descriptive_stats_numeric data k
      = Raise (ValueError "The input must not be empty.")).
Proof.
  intros Hk. split.
  - intros Hne.
    destruct (descriptive_stats_numeric_ok data k Hne)
      as (r & Hr & _ & _ & _ & _ & _ & _ & Hlo & Hup & _).
    exists r. repeat split; assumption.
  - apply descriptive_stats_numeric_empty.
Qed.

Lemma negative_factor_not_rejected_witness :
  exists r,
    descriptive_stats_numeric
      (mkSeries "x" float64 [1; 2; 3; 4; 5; 100]) (-1) = Ok r
    /\ NumericStats.lower_fence r
       = NumericStats.q1 r - (-1) * NumericStats.iqr r.
Proof.
  destruct (negative_factor_not_rejected
              (mkSeries "x" float64 [1; 2; 3; 4; 5; 100]) (-1)) as [H _].
  - reflexivity.
  - destruct H as (r & Hr & Hlo & _).
    + simpl. discriminate.
    + exists r. split; assumption.
Defined.

(** C3 as stated fails: a negative factor on a non-empty column returns. *)
Lemma negative_factor_returns :
  ~ (forall (data : Series Q) (k : Q),
       k < 0 -> exists e, descriptive_stats_numeric data k = Raise e).
Proof.
  intros H.
  destruct (H (mkSeries "x" float64 [1; 2; 3; 4; 5; 100]) (-1)) as [e He].
  - reflexivity.
  - vm_compute in He. discriminate.
Qed.




(** C9: the column [1,2,3,4,5,100] with the default factor gives min = 1,
    max = 100, median = 3.5, q1 = 2.25, q3 = 4.75 (interpolated
    percentiles), iqr = 2.5, fences -1.5 and 8.5, and one outlier, the
    value 100; the same for an int64 and for a float64 column. *)
Theorem example_column_statistics (column_name : string) (dt : np_dtype) :
  let data := mkSeries column_name dt [1; 2; 3; 4; 5; 100] in
  exists r,
    descriptive_stats_numeric data tukey_factor_default = Ok r
    /\ NumericStats.min r == 1
    /\ NumericStats.max r == 100
    /\ NumericStats.median r == 3.5
    /\ NumericStats.q1 r == 2.25
    /\ NumericStats.q3 r == 4.75
    /\ NumericStats.iqr r == 2.5
    /\ NumericStats.lower_fence r == -1.5
    /\ NumericStats.upper_fence r == 8.5
    /\ NumericStats.n_outliers r = 1%nat
    /\ filter (outlier_mask (NumericStats.lower_fence r)
                 (NumericStats.upper_fence r)) (values data) = [100].
Proof.
  intros data. unfold data.
  destruct dt;
    (eexists; split; [vm_compute; reflexivity |]);
    repeat split; vm_compute; reflexivity.
Qed.

(** ** Frequency tables *)

Lemma count_of_count_add (v w : string) (vc : list (string * nat)) :
  count_of (count_add v vc) w
  = if String.eqb v w then S (count_of vc w) else count_of vc w.
Proof.
  induction vc as [| [u c] vc IH]; simpl.
  - rewrite (String.eqb_sym w v). destruct (String.eqb v w); reflexivity.
  - destruct (String.eqb v u) eqn:Evu; simpl.
    + apply String.eqb_eq in Evu. subst u.
      rewrite (String.eqb_sym w v). destruct (String.eqb v w); reflexivity.
    + rewrite IH. destruct (String.eqb w u) eqn:Ewu; [| reflexivity].
      apply String.eqb_eq in Ewu. subst u. rewrite Evu. reflexivity.
Qed.

Lemma count_add_keys (v w : string) (vc : list (string * nat)) :
  In w (map fst (count_add v vc)) <-> w = v \/ In w (map fst vc).
Proof.
  induction vc as [| [u c] vc IH]; simpl.
  - intuition congruence.
  - destruct (String.eqb v u) eqn:Evu; simpl.
    + apply String.eqb_eq in Evu. subst u. intuition congruence.
    + rewrite IH. intuition.
Qed.

Lemma count_add_NoDup (v : string) (vc : list (string * nat)) :
  NoDup (map fst vc) -> NoDup (map fst (count_add v vc)).
Proof.
  induction vc as [| [u c] vc IH]; simpl; intros Hnd.
  - constructor; [intros [] | constructor].
  - destruct (String.eqb v u) eqn:Evu; simpl; [exact Hnd |].
    apply String.eqb_neq in Evu.
    inversion Hnd as [| ? ? Hu Hnd']; subst.
    constructor; [| apply IH, Hnd'].
    rewrite count_add_keys. intros [E | H]; [congruence | contradiction].
Qed.

Lemma count_add_positive (v : string) (vc : list (string * nat)) :
  Forall (fun p => (0 < snd p)%nat) vc ->
  Forall (fun p => (0 < snd p)%nat) (count_add v vc).
Proof.
  induction 1 as [| [u c] vc Hc Hvc IH]; simpl.
  - repeat constructor.
  - destruct (String.eqb v u); constructor; simpl in *; auto; lia.
Qed.

(** What the table built from [l] on top of [vc] holds. *)
Lemma fold_count_add (l : list string) (vc : list (string * nat)) :
  let vc' := fold_left (fun vc v => count_add v vc) l vc in
  (forall w, count_of vc' w = (count_of vc w + count_occ string_dec l w)%nat)
  /\ (forall w, In w (map fst vc') <-> In w (map fst vc) \/ In w l)
  /\ (NoDup (map fst vc) -> NoDup (map fst vc'))
  /\ (Forall (fun p => (0 < snd p)%nat) vc ->
      Forall (fun p => (0 < snd p)%nat) vc').
Proof.
  revert vc. induction l as [| v l IH]; intros vc; simpl.
  - split; [intros w; lia |]. split; [intros w; tauto |]. split; auto.
  - destruct (IH (count_add v vc)) as (Hc & Hk & Hnd & Hpos).
    simpl in Hc, Hk, Hnd, Hpos.
    split; [| split; [| split]].
    + intros w. rewrite Hc, count_of_count_add.
      destruct (string_dec v w) as [E | E].
      * subst w. rewrite String.eqb_refl. lia.
      * apply String.eqb_neq in E. rewrite E. lia.
    + intros w. rewrite Hk, count_add_keys. intuition.
    + intros H. apply Hnd, count_add_NoDup, H.
    + intros H. apply Hpos, count_add_positive, H.
Qed.

Lemma count_of_In (vc : list (string * nat)) (v : string) (c : nat) :
  NoDup (map fst vc) -> In (v, c) vc -> count_of vc v = c.
Proof.
  induction vc as [| [u d] vc IH]; simpl; intros Hnd Hin; [contradiction |].
  inversion Hnd as [| ? ? Hu Hnd']; subst.
  destruct Hin as [E | Hin].
  - inversion E; subst. rewrite String.eqb_refl. reflexivity.
  - destruct (String.eqb v u) eqn:Evu; [| apply IH; assumption].
    apply String.eqb_eq in Evu. subst u.
    exfalso. apply Hu. apply (in_map fst) in Hin. exact Hin.
Qed.

(** The table of [hash_counts]: one entry per distinct value, holding the
    number of its occurrences. *)
Lemma hash_counts_spec (l : list string) :
  NoDup (map fst (hash_counts l))
  /\ (forall v, In v (map fst (hash_counts l)) <-> In v l)
  /\ (forall v c, In (v, c) (hash_counts l) -> c = count_occ string_dec l v).
Proof.
  destruct (fold_count_add l []) as (Hc & Hk & Hnd & _).
  simpl in Hc, Hk, Hnd. fold (hash_counts l) in Hc, Hk, Hnd.
  assert (Hnd' : NoDup (map fst (hash_counts l))) by (apply Hnd; constructor).
  split; [exact Hnd' |]. split.
  - intros v. rewrite Hk. intuition.
  - intros v c Hin. rewrite <- (count_of_In _ _ _ Hnd' Hin). apply Hc.
Qed.

(** ** Sorting by descending count *)

Lemma insert_desc_perm (x : string * nat) (l : list (string * nat)) :
  Permutation (x :: l) (insert_desc x l).
Proof.
  induction l as [| y l IH]; simpl; [apply Permutation_refl |].
  destruct (snd y <=? snd x)%nat; [apply Permutation_refl |].
  eapply perm_trans; [apply perm_swap | apply perm_skip, IH].
Qed.

Lemma sort_values_desc_perm (vc : list (string * nat)) :
  Permutation vc (sort_values_desc vc).
Proof.
  induction vc as [| x vc IH]; simpl; [constructor |].
  eapply perm_trans; [apply perm_skip, IH | apply insert_desc_perm].
Qed.

Lemma insert_desc_sorted (x : string * nat) (l : list (string * nat)) :
  StronglySorted count_ge l -> StronglySorted count_ge (insert_desc x l).
Proof.
  induction 1 as [| y l Hs IH Hy]; simpl.
  - repeat constructor.
  - destruct (snd y <=? snd x)%nat eqn:E.
    + apply Nat.leb_le in E.
      constructor; [constructor; assumption |].
      constructor; [exact E |].
      eapply Forall_impl; [| exact Hy].
      unfold count_ge. intros z Hz. lia.
    + apply Nat.leb_gt in E.
      constructor; [exact IH |].
      apply (Permutation_Forall (insert_desc_perm x l)).
      constructor; [unfold count_ge; lia | exact Hy].
Qed.

Lemma sort_values_desc_sorted (vc : list (string * nat)) :
  StronglySorted count_ge (sort_values_desc vc).
Proof.
  induction vc as [| x vc IH]; simpl; [constructor |].
  apply insert_desc_sorted, IH.
Qed.

(** The table of [value_counts]: the entries of [hash_counts], by
    descending count. *)
Lemma value_counts_spec (data : Series string) :
  StronglySorted count_ge (value_counts data)
  /\ NoDup (map fst (value_counts data))
  /\ (forall v, In v (map fst (value_counts data)) <-> In v (values data))
  /\ (forall v c, In (v, c) (value_counts data) ->
                  c = count_occ string_dec (values data) v).
Proof.
  unfold value_counts.
  destruct (hash_counts_spec (values data)) as (Hnd & Hk & Hc).
  pose proof (sort_values_desc_perm (hash_counts (values data))) as Hp.
  split; [apply sort_values_desc_sorted |]. split; [| split].
  - eapply Permutation_NoDup; [apply Permutation_map, Hp | exact Hnd].
  - intros v. rewrite <- Hk. split; apply Permutation_in.
    + apply Permutation_sym, Permutation_map, Hp.
    + apply Permutation_map, Hp.
  - intros v c Hin. apply Hc.
    eapply Permutation_in; [apply Permutation_sym, Hp | exact Hin].
Qed.

(** ** Maximum of a table sorted by descending count *)

Lemma argmax_entry_head (x : string * nat) (l : list (string * nat)) :
  Forall (count_ge x) l -> argmax_entry x l = x.
Proof.
  unfold argmax_entry. induction 1 as [| y l Hy Hl IH]; simpl; [reflexivity |].
  unfold count_ge in Hy.
  destruct (snd x <? snd y)%nat eqn:E; [apply Nat.ltb_lt in E; lia | exact IH].
Qed.

Lemma fold_max_bounded (l : list nat) (m : nat) :
  Forall (fun c => (c <= m)%nat) l -> fold_left Nat.max l m = m.
Proof.
  induction 1 as [| c l Hc Hl IH]; simpl; [reflexivity |].
  rewrite Nat.max_l by exact Hc. exact IH.
Qed.

Lemma series_max_head (x : string * nat) (l : list (string * nat)) :
  Forall (count_ge x) l -> series_max (x :: l) = snd x.
Proof.
  intros H. unfold series_max. simpl. apply fold_max_bounded.
  rewrite Forall_map. exact H.
Qed.

(** ** [descriptive_stats_categorical] *)

Lemma value_counts_not_nil (data : Series string) :
  values data <> [] -> value_counts data <> [].
Proof.
  intros Hne E.
  destruct (value_counts_spec data) as (_ & _ & Hk & _).
  destruct (values data) as [| v l] eqn:Ev; [congruence |].
  assert (H : In v (map fst (value_counts data))) by (apply Hk; left; reflexivity).
  rewrite E in H. exact H.
Qed.

Lemma descriptive_stats_categorical_empty (data : Series string) :
  values data = [] ->
  descriptive_stats_categorical data
  = Raise (ValueError "attempt to get argmax of an empty sequence").
Proof.
  intros E. unfold descriptive_stats_categorical, value_counts.
  rewrite E. reflexivity.
Qed.

(** The record in terms of the sorted table: the mode is its first entry
    and the second most common value its second one. *)
Lemma descriptive_stats_categorical_ok (data : Series string) :
  values data <> [] ->
  exists m cm rest r,
    value_counts data = (m, cm) :: rest
    /\ descriptive_stats_categorical data = Ok r
    /\ CategoricalStats.n r = length (values data)
    /\ CategoricalStats.mode r = m
    /\ CategoricalStats.mode_count r = cm
    /\ CategoricalStats.second_most_common r = option_map fst (hd_error rest)
    /\ CategoricalStats.second_most_common_count r
       = option_map snd (hd_error rest).
Proof.
  intros Hne.
  destruct (value_counts_spec data) as (Hs & _).
  pose proof (value_counts_not_nil data Hne) as Hvc.
  unfold descriptive_stats_categorical.
  destruct (value_counts data) as [| [m cm] rest] eqn:E; [congruence |].
  apply StronglySorted_inv in Hs. destruct Hs as [_ Hhd].
  exists m, cm, rest. eexists. split; [reflexivity |].
  unfold idxmax. rewrite (argmax_entry_head _ _ Hhd).
  rewrite (series_max_head _ _ Hhd). simpl bind.
  split; [reflexivity |]. simpl.
  repeat split; destruct rest; reflexivity.
Qed.



(** ** Rounding *)

Lemma rint_bounds (x : Q) (N : Z) :
  0 <= x -> x <= inject_Z N -> (0 <= rint x <= N)%Z.
Proof.
  intros H0 HN.
  assert (Hf0 : (0 <= Qfloor x)%Z).
  { change 0%Z with (Qfloor 0). apply Qfloor_resp_le, H0. }
  assert (HfN : (Qfloor x <= N)%Z).
  { rewrite <- (Qfloor_Z N). apply Qfloor_resp_le, HN. }
  assert (Hfl : inject_Z (Qfloor x) <= x) by apply Qfloor_le.
  unfold rint.
  destruct (Qlt_bool (x - inject_Z (Qfloor x)) (1 # 2)) eqn:E1; [lia |].
  apply Qlt_bool_false in E1.
  assert (Hlt : (Qfloor x < N)%Z).
  { rewrite Zlt_Qlt. lra. }
  destruct (Qlt_bool (1 # 2) (x - inject_Z (Qfloor x))); [lia |].
  destruct (Z.even (Qfloor x)); lia.
Qed.

(** [rint] is within one half of its argument. *)
Lemma rint_close (x : Q) :
  x - (1 # 2) <= inject_Z (rint x) /\ inject_Z (rint x) <= x + (1 # 2).
Proof.
  assert (Hfl : inject_Z (Qfloor x) <= x) by apply Qfloor_le.
  assert (Hfu : x < inject_Z (Qfloor x + 1)) by apply Qlt_floor.
  rewrite inject_Z_plus in Hfu. change (inject_Z 1) with 1 in Hfu.
  unfold rint.
  destruct (Qlt_bool (x - inject_Z (Qfloor x)) (1 # 2)) eqn:E1.
  - apply Qlt_bool_iff in E1. lra.
  - apply Qlt_bool_false in E1.
    destruct (Qlt_bool (1 # 2) (x - inject_Z (Qfloor x))) eqn:E2.
    + rewrite inject_Z_plus. change (inject_Z 1) with 1. lra.
    + apply Qlt_bool_false in E2.
      destruct (Z.even (Qfloor x)).
      * lra.
      * rewrite inject_Z_plus. change (inject_Z 1) with 1. lra.
Qed.

(** ** Missing entries *)

Lemma dropna_isnull_length {A : Type} (l : list (option A)) :
  (length (dropna_list l) + length (filter isnull l) = length l)%nat.
Proof.
  induction l as [| [v |] l IH]; simpl; lia.
Qed.

Lemma column_count_isnull_sum (c : Column) :
  (column_count c + column_isnull_sum c = column_len c)%nat.
Proof.
  destruct c as [s | s]; apply dropna_isnull_length.
Qed.

Lemma Qnat_nonneg (k : nat) : 0 <= Qnat k.
Proof.
  unfold Qnat. change 0 with (inject_Z 0). rewrite <- Zle_Qle. lia.
Qed.

Lemma Qnat_le (j k : nat) : (j <= k)%nat -> Qnat j <= Qnat k.
Proof.
  intros H. unfold Qnat. rewrite <- Zle_Qle. lia.
Qed.

Lemma Qnat_pos (k : nat) : (0 < k)%nat -> 0 < Qnat k.
Proof.
  intros H. unfold Qnat. change 0 with (inject_Z 0). rewrite <- Zlt_Qlt. lia.
Qed.

(** With at least one row the percentage is a number between 0 and 100 with
    at most two decimals, within 0.005 of the exact percentage. *)
Lemma missing_percentage_of_bounds (missing_count value_count : nat) :
  (0 < value_count)%nat ->
  (missing_count <= value_count)%nat ->
  exists p,
    missing_percentage_of missing_count value_count = Finite p
    /\ 0 <= p /\ p <= 100
    /\ (exists z : Z, p == inject_Z z / 100)
    /\ Qabs (p - Qnat missing_count / Qnat value_count * 100) <= 5 # 1000.
Proof.
  intros Hv Hm.
  pose proof (Qnat_pos _ Hv) as Hvq.
  pose proof (Qnat_nonneg missing_count) as Hmq.
  pose proof (Qnat_le _ _ Hm) as Hle.
  unfold missing_percentage_of, np_true_divide.
  destruct (Qeq_bool (Qnat value_count) 0) eqn:E.
  { apply Qeq_bool_iff in E. lra. }
  simpl np_multiply. unfold np_round.
  change (inject_Z (10 ^ Z.of_nat 2)) with 100.
  set (ratio := Qnat missing_count / Qnat value_count).
  assert (Hr0 : 0 <= ratio).
  { apply Qle_shift_div_l; [exact Hvq | lra]. }
  assert (Hr1 : ratio <= 1).
  { apply Qle_shift_div_r; [exact Hvq | lra]. }
  set (x := ratio * 100 * 100).
  assert (Hx0 : 0 <= x) by (unfold x; lra).
  assert (Hx1 : x <= inject_Z 10000).
  { change (inject_Z 10000) with 10000. unfold x. lra. }
  destruct (rint_bounds x 10000 Hx0 Hx1) as [Hz0 Hz1].
  destruct (rint_close x) as [Hc0 Hc1].
  rewrite Zle_Qle in Hz0, Hz1.
  change (inject_Z 0) with 0 in Hz0. change (inject_Z 10000) with 10000 in Hz1.
  exists (inject_Z (rint x) / 100). split; [reflexivity |].
  assert (Hp : inject_Z (rint x) / 100 == inject_Z (rint x) * (1 # 100))
    by reflexivity.
  rewrite Hp.
  assert (Hxe : x == ratio * 100 * 100) by reflexivity.
  clearbody x.
  split; [lra |]. split; [lra |]. split.
  - exists (rint x). reflexivity.
  - apply Qabs_Qle_condition. split; lra.
Qed.

(** ** The loop over the columns *)

Lemma bind_ok {A B : Type} (c : result A) (k : A -> result B) (b : B) :
  bind c k = Ok b -> exists a, c = Ok a /\ k a = Ok b.
Proof.
  destruct c as [a | e]; simpl; intros H; [| discriminate].
  exists a. split; [reflexivity | exact H].
Qed.

Lemma mapM_ok {A B : Type} (f : A -> result B) (l : list A) (ys : list B) :
  mapM f l = Ok ys -> Forall2 (fun x y => f x = Ok y) l ys.
Proof.
  revert ys. induction l as [| x l IH]; simpl; intros ys H.
  - inversion H. constructor.
  - apply bind_ok in H. destruct H as (y & Hy & H).
    apply bind_ok in H. destruct H as (ys' & Hys & H).
    inversion H; subst. constructor; [exact Hy | apply IH, Hys].
Qed.


(** The statistics step succeeds exactly on a column with a non-missing
    entry, and its dictionary then has that column's non-missing count
    under "n". *)
Lemma column_stats_ok (c : Column) (st : stats) :
  column_stats c = Ok st ->
  (0 < column_count c)%nat /\ get_n st = Some (column_count c).
Proof.
  destruct c as [s | s]; simpl; intros H;
    apply bind_ok in H; destruct H as (r & Hr & H); inversion H; subst;
    simpl; unfold len.
  - destruct (values (dropna s)) as [| x l] eqn:E.
    + rewrite (descriptive_stats_numeric_empty _ _ E) in Hr. discriminate.
    + assert (Hne : values (dropna s) <> []) by (rewrite E; discriminate).
      destruct (descriptive_stats_numeric_ok _ tukey_factor_default Hne)
        as (r' & Hr' & _ & Hn & _).
      rewrite Hr in Hr'. inversion Hr'; subst r'.
      rewrite Hn, E. simpl. split; [lia | reflexivity].
  - destruct (values (dropna s)) as [| x l] eqn:E.
    + rewrite (descriptive_stats_categorical_empty _ E) in Hr. discriminate.
    + assert (Hne : values (dropna s) <> []) by (rewrite E; discriminate).
      destruct (descriptive_stats_categorical_ok _ Hne)
        as (m & cm & rest & r' & _ & Hr' & Hn & _).
      rewrite Hr in Hr'. inversion Hr'; subst r'.
      rewrite Hn, E. simpl. split; [lia | reflexivity].
Qed.


(** The fields of a row that [analyze_column] produces. *)
Lemma analyze_column_ok (df : DataFrame) (c : Column) (r : Combined.t) :
  analyze_column df c = Ok r ->
  Combined.column r = label c
  /\ Combined.n r = column_count c
  /\ (0 < column_count c)%nat
  /\ Combined.missing_value r = column_isnull_sum c
  /\ Combined.missing_percentage r
     = missing_percentage_of (column_isnull_sum c) (column_len c)
  /\ Combined.duplicated r = duplicated_sum df.
Proof.
  unfold analyze_column. intros H.
  apply bind_ok in H. destruct H as (st & Hst & H).
  apply column_stats_ok in Hst. destruct Hst as [Hpos Hn].
  inversion H; subst; simpl. rewrite Hn. simpl.
  repeat split; try reflexivity; exact Hpos.
Qed.

Lemma Forall2_with_Forall {A B : Type} (P : A -> Prop) (R S : A -> B -> Prop)
  (l : list A) (l' : list B) :
  (forall x y, P x -> R x y -> S x y) ->
  Forall P l -> Forall2 R l l' -> Forall2 S l l'.
Proof.
  intros HS HP HR. induction HR as [| x y l l' Hxy HR IH].
  - constructor.
  - inversion HP; subst. constructor; [apply HS; assumption | apply IH; assumption].
Qed.

Lemma Forall2_map_of {A B : Type} (P : A -> Prop) (S : A -> B -> Prop)
  (f : A -> B) (l : list A) :
  (forall x, P x -> S x (f x)) -> Forall P l -> Forall2 S l (map f l).
Proof.
  intros HS. induction 1 as [| x l Hx Hl IH]; simpl; constructor; auto.
Qed.

Lemma isnull_sum_le_len (c : Column) :
  (column_isnull_sum c <= column_len c)%nat.
Proof.
  pose proof (column_count_isnull_sum c). lia.
Qed.

Lemma missing_percentage_of_in_range (missing_count value_count : nat) :
  (0 < value_count)%nat ->
  (missing_count <= value_count)%nat ->
  percentage_in_range (missing_percentage_of missing_count value_count).
Proof.
  intros Hv Hm.
  destruct (missing_percentage_of_bounds _ _ Hv Hm) as (p & Hp & H0 & H1 & _).
  exists p. repeat split; assumption.
Qed.

(** ** [overview_df] and [analyze_dataset] *)

(** C6, for a table with at least one row: in every row of overview_df, and
    in every row of a successful analyze_dataset, missing_percentage is
    round(missing_count / total_row_count * 100, 2) and is a number between
    0 and 100. *)
Theorem missing_percentage_rounded_in_range (df : DataFrame) :
  wf_frame df ->
  ((0 < nrows df)%nat ->
   Forall2
     (fun c r =>
        Overview.missing_value r = column_isnull_sum c
        /\ Overview.missing_percentage r
           = np_round
               (np_multiply
                  (np_true_divide (Qnat (Overview.missing_value r))
                     (Qnat (nrows df)))
                  (Finite 100))
               2
        /\ percentage_in_range (Overview.missing_percentage r))
     df (overview_df df))
  /\ (forall rows,
        analyze_dataset df = Ok rows ->
        Forall2
          (fun c r =>
             Combined.missing_value r = column_isnull_sum c
             /\ Combined.missing_percentage r
                = np_round
                    (np_multiply
                       (np_true_divide (Qnat (Combined.missing_value r))
                          (Qnat (nrows df)))
                       (Finite 100))
                    2
             /\ percentage_in_range (Combined.missing_percentage r))
          df rows).
Proof.
  intros Hwf. split.
  - intros Hrows. unfold overview_df.
    apply Forall2_map_of with (P := fun c => column_len c = nrows df);
      [| exact Hwf].
    intros c Hc. simpl. rewrite Hc.
    split; [reflexivity |]. split; [reflexivity |].
    apply missing_percentage_of_in_range; [exact Hrows |].
    rewrite <- Hc. apply isnull_sum_le_len.
  - intros rows H. apply mapM_ok in H.
    apply Forall2_with_Forall
      with (P := fun c => column_len c = nrows df)
           (R := fun c r => analyze_column df c = Ok r);
      [| exact Hwf | exact H].
    intros c r Hc Hr.
    apply analyze_column_ok in Hr.
    destruct Hr as (_ & _ & Hpos & Hmv & Hmp & _).
    rewrite Hmp, Hmv, Hc.
    split; [reflexivity |]. split; [reflexivity |].
    apply missing_percentage_of_in_range.
    + pose proof (column_count_isnull_sum c). lia.
    + rewrite <- Hc. apply isnull_sum_le_len.
Qed.

Lemma missing_percentage_rounded_in_range_witness :
  Forall (fun r => percentage_in_range (Overview.missing_percentage r))
    (overview_df sample_frame).
Proof.
  destruct (missing_percentage_rounded_in_range sample_frame) as [H _].
  - repeat constructor.
  - assert (Hrows : (0 < nrows sample_frame)%nat) by (vm_compute; lia).
    specialize (H Hrows).
    remember (overview_df sample_frame) as rows eqn:E. clear E.
    induction H as [| c r l l' (_ & _ & Hr) _ IH]; constructor; assumption.
Defined.

(** C6 as stated fails: on a table without rows the quotient is 0/0 and
    the percentage is NaN, which is no number of the interval. *)
Lemma missing_percentage_nan_without_rows :
  ~ (forall df : DataFrame,
       wf_frame df ->
       Forall (fun r => percentage_in_range (Overview.missing_percentage r))
         (overview_df df)).
Proof.
  intros H. specialize (H empty_frame).
  assert (Hwf : wf_frame empty_frame) by (repeat constructor).
  specialize (H Hwf). inversion H as [| r l Hr _]; subst.
  destruct Hr as (q & Hq & _). vm_compute in Hq. discriminate.
Qed.

(** C7: a successful analyze_dataset returns exactly one row per input
    column, in the order of the columns. *)
Theorem one_row_per_column_in_order (df : DataFrame)
  (rows : list Combined.t) :
  analyze_dataset df = Ok rows ->
  length rows = length df
  /\ map Combined.column rows = columns df
  /\ Forall2 (fun c r => analyze_column df c = Ok r) df rows.
Proof.
  intros H. apply mapM_ok in H.
  split; [symmetry; eapply Forall2_length; exact H |].
  split; [| exact H].
  unfold columns. induction H as [| c r l l' Hr _ IH]; simpl; [reflexivity |].
  apply analyze_column_ok in Hr. destruct Hr as (Hc & _).
  rewrite Hc, IH. reflexivity.
Qed.

Lemma one_row_per_column_in_order_witness :
  length sample_rows = 2%nat
  /\ map Combined.column sample_rows = ["a"; "b"].
Proof.
  destruct (one_row_per_column_in_order sample_frame sample_rows)
    as (Hl & Hc & _).
  - vm_compute. reflexivity.
  - split; [exact Hl | exact Hc].
Defined.



(** C10: in every row of a successful analyze_dataset, n is the number of
    non-missing values of the row's column, for a numeric and for a
    categorical column alike, and n + missing_value is the table's number
    of rows. *)
Theorem n_plus_missing_is_row_count (df : DataFrame)
  (rows : list Combined.t) :
  wf_frame df ->
  analyze_dataset df = Ok rows ->
  Forall2
    (fun c r =>
       Combined.n r = column_count c
       /\ (Combined.n r + Combined.missing_value r = nrows df)%nat)
    df rows.
Proof.
  intros Hwf H. apply mapM_ok in H.
  apply Forall2_with_Forall
    with (P := fun c => column_len c = nrows df)
         (R := fun c r => analyze_column df c = Ok r);
    [| exact Hwf | exact H].
  intros c r Hc Hr.
  apply analyze_column_ok in Hr. destruct Hr as (_ & Hn & _ & Hmv & _).
  split; [exact Hn |].
  rewrite Hn, Hmv, <- Hc. apply column_count_isnull_sum.
Qed.

Lemma n_plus_missing_is_row_count_witness :
  Forall (fun r => (Combined.n r + Combined.missing_value r = 3)%nat)
    sample_rows.
Proof.
  assert (H := n_plus_missing_is_row_count sample_frame sample_rows).
  assert (Hwf : wf_frame sample_frame) by (repeat constructor).
  assert (Hok : analyze_dataset sample_frame = Ok sample_rows)
    by (vm_compute; reflexivity).
  specialize (H Hwf Hok).
  remember sample_rows as rows eqn:E. clear E Hok.
  induction H as [| c r l l' (_ & Hr) _ IH]; constructor; assumption.
Defined.


(** * Further properties *)

(** ** Minimum, maximum and the range of the percentiles *)

Lemma Qmin_cases (x y : Q) : Qmin x y = x \/ Qmin x y = y.
Proof.
  unfold Qmin, GenericMinMax.gmin. destruct (x ?= y); auto.
Qed.

Lemma Qmax_cases (x y : Q) : Qmax x y = x \/ Qmax x y = y.
Proof.
  unfold Qmax, GenericMinMax.gmax. destruct (x ?= y); auto.
Qed.

Lemma np_min_spec (x : Q) (l : list Q) :
  In (np_min x l) (x :: l) /\ Forall (fun v => np_min x l <= v) (x :: l).
Proof.
  unfold np_min. revert x. induction l as [| y l IH]; intros x; simpl.
  - split; [left; reflexivity | constructor; [lra | constructor]].
  - destruct (IH (Qmin x y)) as [Hin Hall].
    inversion Hall as [| ? ? Hm Hl]; subst.
    pose proof (Q.le_min_l x y). pose proof (Q.le_min_r x y).
    split.
    + simpl in Hin. destruct Hin as [E | Hin]; [| right; right; exact Hin].
      rewrite <- E. destruct (Qmin_cases x y) as [-> | ->]; auto.
    + constructor; [lra |]. constructor; [lra | exact Hl].
Qed.

Lemma np_max_spec (x : Q) (l : list Q) :
  In (np_max x l) (x :: l) /\ Forall (fun v => v <= np_max x l) (x :: l).
Proof.
  unfold np_max. revert x. induction l as [| y l IH]; intros x; simpl.
  - split; [left; reflexivity | constructor; [lra | constructor]].
  - destruct (IH (Qmax x y)) as [Hin Hall].
    inversion Hall as [| ? ? Hm Hl]; subst.
    pose proof (Q.le_max_l x y). pose proof (Q.le_max_r x y).
    split.
    + simpl in Hin. destruct Hin as [E | Hin]; [| right; right; exact Hin].
      rewrite <- E. destruct (Qmax_cases x y) as [-> | ->]; auto.
    + constructor; [lra |]. constructor; [lra | exact Hl].
Qed.



(** The fields of the record that come from [stats.describe]. *)
Lemma descriptive_stats_numeric_describe (data : Series Q) (k : Q)
  (x : Q) (l : list Q) :
  values data = x :: l ->
  exists r,
    descriptive_stats_numeric data k = Ok r
    /\ NumericStats.min r = np_min x l
    /\ NumericStats.max r = np_max x l
    /\ NumericStats.mean r
       = Qsum (x :: l) / inject_Z (Z.of_nat (length (x :: l)))
    /\ NumericStats.variance r
       = np_true_divide
           (Qsum (map (fun v => (v - NumericStats.mean r)
                                * (v - NumericStats.mean r)) (x :: l)))
           (inject_Z (Z.of_nat (length (x :: l)) - 1)).
Proof.
  intros E. unfold descriptive_stats_numeric. rewrite E. simpl.
  eexists. split; [reflexivity |]. simpl. repeat split.
Qed.

(** X1: the function raises exactly on an empty column, whatever the fence
    factor; on a non-empty one it returns a record carrying the series'
    name and the number of its values. *)
Theorem descriptive_stats_numeric_raises_iff_empty (data : Series Q)
  (k : Q) :
  (values data = [] ->
   descriptive_stats_numeric data k
   = Raise (ValueError "The input must not be empty."))
  /\ (values data <> [] ->
      exists r,
        descriptive_stats_numeric data k = Ok r
        /\ NumericStats.column r = name data
        /\ NumericStats.n r = length (values data))
  /\ ((exists e, descriptive_stats_numeric data k = Raise e)
      <-> values data = []).
Proof.
  split; [apply descriptive_stats_numeric_empty |]. split.
  - intros Hne.
    destruct (descriptive_stats_numeric_ok data k Hne) as (r & Hr & Hc & Hn & _).
    exists r. repeat split; assumption.
  - split.
    + intros [e He]. destruct (values data) as [| x l] eqn:E; [reflexivity |].
      assert (Hne : values data <> []) by (rewrite E; discriminate).
      destruct (descriptive_stats_numeric_ok data k Hne) as (r & Hr & _).
      congruence.
    + intros E. eexists. apply descriptive_stats_numeric_empty, E.
Qed.



(** ** The variance *)








(** ** Outliers and the fence factor *)




(** ** Independence of the order of the values *)

Lemma Forall2_Qeq_refl (l : list Q) : Forall2 Qeq l l.
Proof.
  induction l; constructor; [reflexivity | assumption].
Qed.

Lemma Forall2_Qeq_trans (l1 l2 l3 : list Q) :
  Forall2 Qeq l1 l2 -> Forall2 Qeq l2 l3 -> Forall2 Qeq l1 l3.
Proof.
  intros H. revert l3. induction H as [| x y l l' Hxy H IH]; intros l3 H3.
  - exact H3.
  - inversion H3 as [| ? z ? l3' Hyz H3']; subst.
    constructor; [rewrite Hxy; exact Hyz | apply IH, H3'].
Qed.

Lemma insert_Qeq (x x' : Q) (l l' : list Q) :
  x == x' -> Forall2 Qeq l l' -> Forall2 Qeq (insert x l) (insert x' l').
Proof.
  intros Hx. induction 1 as [| y y' l l' Hy Hl IH]; simpl.
  - repeat constructor. exact Hx.
  - rewrite (Qleb_comp _ _ Hx _ _ Hy).
    destruct (Qle_bool x' y'); repeat (constructor; try assumption).
Qed.

Ltac order_cases :=
  repeat match goal with
         | H : Qle_bool _ _ = true |- _ => apply Qle_bool_iff in H
         | H : Qle_bool _ _ = false |- _ => apply Qle_bool_false in H
         end.

(** Two insertions commute, up to the order of equal numbers. *)
Lemma insert_insert (x y : Q) (l : list Q) :
  Forall2 Qeq (insert x (insert y l)) (insert y (insert x l)).
Proof.
  induction l as [| z l IH]; simpl.
  - destruct (Qle_bool x y) eqn:Exy, (Qle_bool y x) eqn:Eyx; order_cases;
      try lra; repeat constructor; try reflexivity; lra.
  - destruct (Qle_bool y z) eqn:Eyz, (Qle_bool x z) eqn:Exz; simpl;
      rewrite ?Eyz, ?Exz;
      destruct (Qle_bool x y) eqn:Exy, (Qle_bool y x) eqn:Eyx; simpl;
      rewrite ?Eyz, ?Exz; order_cases; try lra;
      repeat (constructor; try reflexivity; try lra);
      try apply Forall2_Qeq_refl; try exact IH.
Qed.

Lemma np_sort_Permutation (l l' : list Q) :
  Permutation l l' -> Forall2 Qeq (np_sort l) (np_sort l').
Proof.
  induction 1 as [| x l l' Hp IH | x y l | l1 l2 l3 H12 IH12 H23 IH23]; simpl.
  - constructor.
  - apply insert_Qeq; [reflexivity | exact IH].
  - apply insert_insert.
  - eapply Forall2_Qeq_trans; eassumption.
Qed.

Lemma nth_Qeq (l l' : list Q) (i : nat) :
  Forall2 Qeq l l' -> nth i l 0 == nth i l' 0.
Proof.
  intros H. revert i. induction H as [| x y l l' Hxy H IH]; intros [| i];
    simpl; try reflexivity; [exact Hxy | apply IH].
Qed.

Lemma np_subtract_Qeq (dt : np_dtype) (a a' b b' : Q) :
  a == a' -> b == b' -> np_subtract dt b a == np_subtract dt b' a'.
Proof.
  intros Ha Hb. destruct dt; simpl.
  - rewrite (Qfloor_comp _ _ Ha), (Qfloor_comp _ _ Hb). reflexivity.
  - rewrite Ha, Hb. reflexivity.
  - rewrite Ha, Hb. reflexivity.
Qed.

Lemma lerp_Qeq (dt : np_dtype) (a a' b b' t : Q) :
  a == a' -> b == b' -> lerp dt a b t == lerp dt a' b' t.
Proof.
  intros Ha Hb. unfold lerp. cbv zeta.
  pose proof (np_subtract_Qeq dt a a' b b' Ha Hb) as E.
  destruct (Qle_bool (1 # 2) t); rewrite E; [rewrite Hb | rewrite Ha];
    reflexivity.
Qed.

Lemma quantile_at_Qeq (dt : np_dtype) (arr arr' : list Q) (v : Q) :
  Forall2 Qeq arr arr' -> quantile_at dt arr v == quantile_at dt arr' v.
Proof.
  intros H. unfold quantile_at.
  rewrite <- (Forall2_length H).
  destruct (get_indexes v (Z.of_nat (length arr))) as [p nx].
  unfold py_index. rewrite <- (Forall2_length H).
  apply lerp_Qeq; apply nth_Qeq, H.
Qed.

Lemma np_percentile_Permutation (dt : np_dtype) (a a' : list Q) (q : Q) :
  Permutation a a' -> np_percentile dt a q == np_percentile dt a' q.
Proof.
  intros Hp. unfold np_percentile.
  rewrite !np_sort_length, <- (Permutation_length Hp).
  apply quantile_at_Qeq, np_sort_Permutation, Hp.
Qed.

Lemma filter_length_ext {A : Type} (f g : A -> bool) (l : list A) :
  (forall v, f v = g v) -> length (filter f l) = length (filter g l).
Proof.
  intros Hfg. induction l as [| v l IH]; simpl; [reflexivity |].
  rewrite <- Hfg. destruct (f v); simpl; congruence.
Qed.

Lemma filter_length_Permutation {A : Type} (f g : A -> bool) (l l' : list A) :
  (forall v, f v = g v) -> Permutation l l' ->
  length (filter f l) = length (filter g l').
Proof.
  intros Hfg.
  induction 1 as [| x l l' Hp IH | x y l | l1 l2 l3 H12 IH12 H23 IH23]; simpl.
  - reflexivity.
  - rewrite <- Hfg. destruct (f x); simpl; congruence.
  - rewrite <- !Hfg. pose proof (filter_length_ext f g l Hfg) as E.
    destruct (f x), (f y); simpl; congruence.
  - rewrite IH12, <- IH23. symmetry. apply filter_length_ext, Hfg.
Qed.

Lemma outlier_mask_Qeq (lo lo' hi hi' v : Q) :
  lo == lo' -> hi == hi' -> outlier_mask lo hi v = outlier_mask lo' hi' v.
Proof.
  intros Hlo Hhi. unfold outlier_mask, Qlt_bool.
  rewrite (Qleb_comp _ _ Hlo _ _ (Qeq_refl v)).
  rewrite (Qleb_comp _ _ (Qeq_refl v) _ _ Hhi). reflexivity.
Qed.

(** X7: the count, the extremes, the quartiles, the fences and the number
    of outliers do not depend on the order of the values: two columns of
    one dtype with the same values in a different order have the same n,
    min, max, q1, median, q3, lower_fence, upper_fence and n_outliers. *)
Theorem statistics_independent_of_order (d1 d2 : Series Q) (k : Q) :
  values d1 <> [] ->
  dtype d1 = dtype d2 ->
  Permutation (values d1) (values d2) ->
  exists r1 r2,
    descriptive_stats_numeric d1 k = Ok r1
    /\ descriptive_stats_numeric d2 k = Ok r2
    /\ NumericStats.n r1 = NumericStats.n r2
    /\ NumericStats.min r1 == NumericStats.min r2
    /\ NumericStats.max r1 == NumericStats.max r2
    /\ NumericStats.q1 r1 == NumericStats.q1 r2
    /\ NumericStats.median r1 == NumericStats.median r2
    /\ NumericStats.q3 r1 == NumericStats.q3 r2
    /\ NumericStats.lower_fence r1 == NumericStats.lower_fence r2
    /\ NumericStats.upper_fence r1 == NumericStats.upper_fence r2
    /\ NumericStats.n_outliers r1 = NumericStats.n_outliers r2.
Proof.
  intros Hne Hdt Hp.
  assert (Hne2 : values d2 <> []).
  { intros E. rewrite E in Hp. apply Permutation_sym, Permutation_nil in Hp.
    contradiction. }
  destruct (values d1) as [| x1 l1] eqn:E1; [congruence |].
  destruct (values d2) as [| x2 l2] eqn:E2; [congruence |].
  destruct (descriptive_stats_numeric_describe d1 k x1 l1 E1)
    as (r1 & Hr1 & Hmin1 & Hmax1 & _).
  destruct (descriptive_stats_numeric_describe d2 k x2 l2 E2)
    as (r2 & Hr2 & Hmin2 & Hmax2 & _).
  assert (Hn1 : values d1 <> []) by (rewrite E1; discriminate).
  assert (Hn2 : values d2 <> []) by (rewrite E2; discriminate).
  destruct (descriptive_stats_numeric_ok d1 k Hn1)
    as (r1' & Hr1' & _ & Hc1 & Hq1 & Hmed1 & Hq3 & Hiqr1 & Hlo1 & Hup1 & Ho1).
  destruct (descriptive_stats_numeric_ok d2 k Hn2)
    as (r2' & Hr2' & _ & Hc2 & Hq1' & Hmed2 & Hq3' & Hiqr2 & Hlo2 & Hup2 & Ho2).
  rewrite Hr1 in Hr1'. inversion Hr1'; subst r1'. clear Hr1'.
  rewrite Hr2 in Hr2'. inversion Hr2'; subst r2'. clear Hr2'.
  rewrite E1 in *. rewrite E2 in *. rewrite <- Hdt in *.
  pose proof (np_percentile_Permutation (dtype d1) _ _ 25 Hp) as P25.
  pose proof (np_percentile_Permutation (dtype d1) _ _ 50 Hp) as P50.
  pose proof (np_percentile_Permutation (dtype d1) _ _ 75 Hp) as P75.
  assert (Hlo : NumericStats.lower_fence r1 == NumericStats.lower_fence r2).
  { rewrite Hlo1, Hlo2, Hiqr1, Hiqr2, Hq1, Hq1', Hq3, Hq3', P25, P75.
    reflexivity. }
  assert (Hup : NumericStats.upper_fence r1 == NumericStats.upper_fence r2).
  { rewrite Hup1, Hup2, Hiqr1, Hiqr2, Hq1, Hq1', Hq3, Hq3', P25, P75.
    reflexivity. }
  exists r1, r2. split; [exact Hr1 |]. split; [exact Hr2 |].
  split; [rewrite Hc1, Hc2; apply (Permutation_length Hp) |].
  split.
  { rewrite Hmin1, Hmin2.
    destruct (np_min_spec x1 l1) as [Hi1 Ha1].
    destruct (np_min_spec x2 l2) as [Hi2 Ha2].
    rewrite Forall_forall in Ha1, Ha2.
    apply Qle_antisym.
    - apply Ha1. eapply Permutation_in; [apply Permutation_sym, Hp | exact Hi2].
    - apply Ha2. eapply Permutation_in; [exact Hp | exact Hi1]. }
  split.
  { rewrite Hmax1, Hmax2.
    destruct (np_max_spec x1 l1) as [Hi1 Ha1].
    destruct (np_max_spec x2 l2) as [Hi2 Ha2].
    rewrite Forall_forall in Ha1, Ha2.
    apply Qle_antisym.
    - apply Ha2. eapply Permutation_in; [exact Hp | exact Hi1].
    - apply Ha1. eapply Permutation_in; [apply Permutation_sym, Hp | exact Hi2]. }
  split; [rewrite Hq1, Hq1'; exact P25 |].
  split; [rewrite Hmed1, Hmed2; exact P50 |].
  split; [rewrite Hq3, Hq3'; exact P75 |].
  split; [exact Hlo |]. split; [exact Hup |].
  rewrite Ho1, Ho2. apply filter_length_Permutation; [| exact Hp].
  intros v. apply outlier_mask_Qeq; assumption.
Qed.

Lemma statistics_independent_of_order_witness :
  exists r1 r2,
    descriptive_stats_numeric (mkSeries "x" int64 [2; 1; 30]) 1.5 = Ok r1
    /\ descriptive_stats_numeric (mkSeries "y" int64 [1; 2; 30]) 1.5 = Ok r2
    /\ NumericStats.q1 r1 == NumericStats.q1 r2
    /\ NumericStats.n_outliers r1 = NumericStats.n_outliers r2.
Proof.
  destruct (statistics_independent_of_order
              (mkSeries "x" int64 [2; 1; 30])
              (mkSeries "y" int64 [1; 2; 30]) 1.5)
    as (r1 & r2 & H1 & H2 & _ & _ & _ & Hq & _ & _ & _ & _ & Ho).
  - simpl. discriminate.
  - reflexivity.
  - simpl. apply perm_swap.
  - exists r1, r2. repeat split; assumption.
Defined.

(** ** Counts of a categorical column *)

Lemma unique_In (l : list string) (v : string) :
  In v (unique String.eqb l) <-> In v l.
Proof.
  induction l as [| x l IH]; simpl; [reflexivity |].
  rewrite filter_In, IH, negb_true_iff.
  destruct (string_dec x v) as [E | E].
  - subst. intuition.
  - rewrite <- String.eqb_neq in E. rewrite E.
    apply String.eqb_neq in E. intuition congruence.
Qed.

Lemma unique_NoDup (l : list string) : NoDup (unique String.eqb l).
Proof.
  induction l as [| x l IH]; simpl; constructor.
  - rewrite filter_In, String.eqb_refl. simpl. intros [_ H]. discriminate.
  - apply NoDup_filter, IH.
Qed.

Lemma unique_length_le {A : Type} (eqb : A -> A -> bool) (l : list A) :
  (length (unique eqb l) <= length l)%nat.
Proof.
  induction l as [| x l IH]; simpl; [lia |].
  pose proof (filter_length_le (fun y => negb (eqb x y)) (unique eqb l)). lia.
Qed.

(** [nunique] counts the entries of the frequency table. *)
Lemma nunique_value_counts (data : Series string) :
  nunique String.eqb (values data) = length (value_counts data).
Proof.
  unfold nunique, value_counts.
  rewrite <- (Permutation_length (sort_values_desc_perm _)).
  destruct (hash_counts_spec (values data)) as (Hnd & Hk & _).
  rewrite <- (length_map fst (hash_counts (values data))).
  apply Permutation_length, NoDup_Permutation;
    [apply unique_NoDup | exact Hnd |].
  intros v. rewrite unique_In, Hk. reflexivity.
Qed.

Lemma count_add_sum (v : string) (vc : list (string * nat)) :
  list_sum (map snd (count_add v vc)) = S (list_sum (map snd vc)).
Proof.
  induction vc as [| [u c] vc IH]; simpl; [reflexivity |].
  destruct (String.eqb v u); simpl; [reflexivity |]. rewrite IH. lia.
Qed.

Lemma fold_count_add_sum (l : list string) (vc : list (string * nat)) :
  list_sum (map snd (fold_left (fun vc v => count_add v vc) l vc))
  = (list_sum (map snd vc) + length l)%nat.
Proof.
  revert vc. induction l as [| v l IH]; intros vc; simpl; [lia |].
  rewrite IH, count_add_sum. lia.
Qed.

(** The counts of the table add up to the number of values, and each of
    them is positive. *)
Lemma value_counts_sum (data : Series string) :
  list_sum (map snd (value_counts data)) = length (values data)
  /\ Forall (fun p => (0 < snd p)%nat) (value_counts data).
Proof.
  unfold value_counts.
  pose proof (sort_values_desc_perm (hash_counts (values data))) as Hp.
  split.
  - rewrite <- (Permutation_list_sum (Permutation_map snd Hp)).
    unfold hash_counts. rewrite fold_count_add_sum. reflexivity.
  - apply (Permutation_Forall Hp).
    destruct (fold_count_add (values data) []) as (_ & _ & _ & Hpos).
    apply Hpos. constructor.
Qed.

Lemma sum_bounded_by_head (x : string * nat) (l : list (string * nat)) :
  Forall (count_ge x) l ->
  (list_sum (map snd l) <= length l * snd x)%nat.
Proof.
  induction 1 as [| y l Hy Hl IH]; simpl; [lia |].
  unfold count_ge in Hy. lia.
Qed.

Lemma length_le_sum (l : list (string * nat)) :
  Forall (fun p => (0 < snd p)%nat) l ->
  (length l <= list_sum (map snd l))%nat.
Proof.
  induction 1 as [| y l Hy Hl IH]; simpl; lia.
Qed.


(** The record and its table, with the facts about the table at hand. *)
Lemma descriptive_stats_categorical_table (data : Series string) :
  values data <> [] ->
  exists m cm rest r,
    value_counts data = (m, cm) :: rest
    /\ descriptive_stats_categorical data = Ok r
    /\ CategoricalStats.column r = name data
    /\ CategoricalStats.n r = length (values data)
    /\ CategoricalStats.n_unique r = S (length rest)
    /\ CategoricalStats.mode r = m
    /\ CategoricalStats.mode_count r = cm
    /\ CategoricalStats.second_most_common r = option_map fst (hd_error rest)
    /\ Forall (count_ge (m, cm)) rest
    /\ (cm + list_sum (map snd rest) = length (values data))%nat
    /\ (0 < cm)%nat
    /\ Forall (fun p => (0 < snd p)%nat) rest.
Proof.
  intros Hne.
  destruct (descriptive_stats_categorical_ok data Hne)
    as (m & cm & rest & r & Hvc & Hr & Hn & Hm & Hcm & Hs & _).
  destruct (value_counts_spec data) as (Hsorted & _).
  destruct (value_counts_sum data) as [Hsum Hpos].
  pose proof (nunique_value_counts data) as Hnu.
  rewrite Hvc in Hsorted, Hsum, Hpos, Hnu.
  apply StronglySorted_inv in Hsorted. destruct Hsorted as [_ Hhd].
  pose proof (Forall_inv Hpos) as Hcm_pos. simpl in Hcm_pos.
  pose proof (Forall_inv_tail Hpos) as Hrest_pos.
  simpl in Hsum, Hnu.
  exists m, cm, rest, r.
  assert (Hfields : CategoricalStats.column r = name data
                    /\ CategoricalStats.n_unique r
                       = nunique String.eqb (values data)).
  { unfold descriptive_stats_categorical in Hr.
    apply bind_ok in Hr. destruct Hr as (md & _ & Hr).
    inversion Hr; subst. split; reflexivity. }
  destruct Hfields as [Hcol Hnuq].
  repeat split; try assumption.
  rewrite Hnuq, Hnu. reflexivity.
Qed.


(** X9: on a non-empty column n_unique is the number of distinct values,
    1 <= n_unique <= n and 1 <= mode_count <= n, no value occurs more often
    than mode_count, and n <= n_unique * mode_count. *)
Theorem categorical_counts_consistent (data : Series string) :
  values data <> [] ->
  exists r,
    descriptive_stats_categorical data = Ok r
    /\ (exists distinct,
          NoDup distinct
          /\ (forall v, In v distinct <-> In v (values data))
          /\ CategoricalStats.n_unique r = length distinct)
    /\ (1 <= CategoricalStats.n_unique r <= CategoricalStats.n r)%nat
    /\ (1 <= CategoricalStats.mode_count r <= CategoricalStats.n r)%nat
    /\ (forall v, (count_occ string_dec (values data) v
                   <= CategoricalStats.mode_count r)%nat)
    /\ (CategoricalStats.n r
        <= CategoricalStats.n_unique r * CategoricalStats.mode_count r)%nat.
Proof.
  intros Hne.
  destruct (descriptive_stats_categorical_table data Hne)
    as (m & cm & rest & r & Hvc & Hr & _ & Hn & Hnu & Hm & Hcm & _
        & Hhd & Hsum & Hpos & Hrest).
  destruct (value_counts_spec data) as (_ & Hnd & Hk & Hc).
  pose proof (sum_bounded_by_head _ _ Hhd) as Hub. simpl in Hub.
  pose proof (length_le_sum _ Hrest) as Hlb.
  exists r. split; [exact Hr |]. rewrite Hn, Hnu, Hcm.
  split.
  { exists (map fst (value_counts data)).
    split; [exact Hnd |]. split; [exact Hk |].
    rewrite Hvc. simpl. rewrite length_map. reflexivity. }
  split; [lia |]. split; [lia |]. split; [| nia].
  intros v.
  destruct (in_dec string_dec v (values data)) as [Hin | Hnin].
  - apply Hk in Hin. apply in_map_iff in Hin.
    destruct Hin as ([v' c] & Ev & Hin). simpl in Ev. subst v'.
    rewrite <- (Hc v c Hin). rewrite Hvc in Hin.
    destruct Hin as [E | Hin]; [inversion E; lia |].
    rewrite Forall_forall in Hhd. apply (Hhd _ Hin).
  - rewrite (proj1 (count_occ_not_In string_dec _ _) Hnin). lia.
Qed.

Lemma categorical_counts_consistent_witness :
  exists r,
    descriptive_stats_categorical (mkSeries "c" object ["a"; "b"; "a"; "c"]) = Ok r
    /\ (CategoricalStats.n r
        <= CategoricalStats.n_unique r * CategoricalStats.mode_count r)%nat.
Proof.
  destruct (categorical_counts_consistent (mkSeries "c" object ["a"; "b"; "a"; "c"]))
    as (r & Hr & _ & _ & _ & _ & Hle).
  - simpl. discriminate.
  - exists r. split; assumption.
Defined.



(** ** Duplicated rows *)

Lemma duplicated_from_le (seen rows : list (list cell)) :
  (duplicated_from seen rows <= length rows)%nat.
Proof.
  revert seen. induction rows as [| r rows IH]; intros seen; simpl; [lia |].
  specialize (IH (r :: seen)). destruct (existsb (row_eqb r) seen); lia.
Qed.

Lemma cell_eqb_sym (a b : cell) : cell_eqb a b = cell_eqb b a.
Proof.
  destruct a as [x | s |], b as [y | t |]; simpl; try reflexivity.
  - destruct (Qeq_bool x y) eqn:E1, (Qeq_bool y x) eqn:E2; try reflexivity.
    + apply Qeq_bool_iff in E1. symmetry in E1. apply Qeq_bool_iff in E1.
      congruence.
    + apply Qeq_bool_iff in E2. symmetry in E2. apply Qeq_bool_iff in E2.
      congruence.
  - apply String.eqb_sym.
Qed.

Lemma row_eqb_sym (r1 r2 : list cell) : row_eqb r1 r2 = row_eqb r2 r1.
Proof.
  revert r2. induction r1 as [| a r1 IH]; intros [| b r2]; simpl;
    try reflexivity.
  rewrite cell_eqb_sym, IH. reflexivity.
Qed.

Lemma filter_not_seen (r : list cell) (seen l : list (list cell)) :
  filter (fun y => negb (existsb (row_eqb y) seen))
    (filter (fun y => negb (row_eqb r y)) l)
  = filter (fun y => negb (existsb (row_eqb y) (r :: seen))) l.
Proof.
  induction l as [| y l IH]; simpl; [reflexivity |].
  rewrite (row_eqb_sym y r).
  destruct (row_eqb r y); simpl; [exact IH |].
  destruct (existsb (row_eqb y) seen); simpl; [exact IH |].
  simpl in IH. rewrite IH. reflexivity.
Qed.

(** Duplicated rows and first occurrences partition the rows not seen
    before. *)
Lemma duplicated_from_unique (seen rows : list (list cell)) :
  (duplicated_from seen rows
   + length (filter (fun r => negb (existsb (row_eqb r) seen))
               (unique row_eqb rows))
   = length rows)%nat.
Proof.
  revert seen. induction rows as [| r rows IH]; intros seen; simpl;
    [reflexivity |].
  specialize (IH (r :: seen)).
  rewrite filter_not_seen. simpl in IH.
  destruct (existsb (row_eqb r) seen); simpl; lia.
Qed.

Lemma Forall2_In_right {A B : Type} (R : A -> B -> Prop) (l : list A)
  (l' : list B) (y : B) :
  Forall2 R l l' -> In y l' -> exists x, In x l /\ R x y.
Proof.
  induction 1 as [| x y' l l' Hxy _ IH]; intros Hin; [contradiction |].
  destruct Hin as [<- | Hin].
  - exists x. split; [left; reflexivity | exact Hxy].
  - destruct (IH Hin) as (x' & Hx' & HR). exists x'. split; [right |]; assumption.
Qed.

(** X11: the duplicated field is the same table-level number in every row
    of overview_df and of a successful analyze_dataset, and it is smaller
    than the number of rows of a table that has rows. *)
Theorem duplicated_same_in_every_row (df : DataFrame) :
  (forall r, In r (overview_df df) ->
             Overview.duplicated r = duplicated_sum df)
  /\ (forall rows r, analyze_dataset df = Ok rows -> In r rows ->
                     Combined.duplicated r = duplicated_sum df)
  /\ (duplicated_sum df <= nrows df - 1)%nat.
Proof.
  split; [| split].
  - intros r Hin. unfold overview_df in Hin. apply in_map_iff in Hin.
    destruct Hin as (c & <- & _). reflexivity.
  - intros rows r H Hin. apply mapM_ok in H.
    destruct (Forall2_In_right _ _ _ _ H Hin) as (c & _ & Hr).
    apply analyze_column_ok in Hr. apply Hr.
  - unfold duplicated_sum. destruct (nrows df) as [| k]; [reflexivity |].
    rewrite <- cons_seq. simpl.
    pose proof (duplicated_from_le [row df 0]
                  (map (row df) (seq 1 k))) as H.
    rewrite length_map, length_seq in H. lia.
Qed.

Lemma filter_none_seen (l : list (list cell)) :
  filter (fun r => negb (existsb (row_eqb r) [])) l = l.
Proof.
  induction l as [| y l IH]; simpl; [reflexivity | f_equal; exact IH].
Qed.

(** X12: duplicated counts the rows that are not the first of their kind:
    together with the number of distinct rows it makes up the number of
    rows. *)
Theorem duplicated_plus_distinct_rows (df : DataFrame) :
  (duplicated_sum df
   + length (unique row_eqb (map (row df) (seq 0 (nrows df))))
   = nrows df)%nat.
Proof.
  unfold duplicated_sum.
  pose proof (duplicated_from_unique [] (map (row df) (seq 0 (nrows df))))
    as H.
  rewrite filter_none_seen, length_map, length_seq in H. exact H.
Qed.

(** ** The overview fields *)

Lemma unique_length_zero {A : Type} (eqb : A -> A -> bool) (l : list A) :
  length (unique eqb l) = 0%nat <-> l = [].
Proof.
  destruct l; simpl; split; intros H; try reflexivity; discriminate.
Qed.

Lemma column_nunique_le_count (c : Column) :
  (column_nunique c <= column_count c)%nat
  /\ (column_nunique c = 0%nat <-> column_count c = 0%nat).
Proof.
  destruct c as [s | s]; simpl; unfold nunique, len; simpl;
    (split; [apply unique_length_le |]);
    rewrite unique_length_zero, length_zero_iff_nil; reflexivity.
Qed.

(** X13: in every row of overview_df, unique_data counts at most the
    non-missing entries of the row's column, so unique_data + missing_value
    is at most the number of rows, and unique_data is 0 exactly for a
    column without a non-missing entry. *)
Theorem unique_data_within_non_missing (df : DataFrame) :
  wf_frame df ->
  Forall2
    (fun c r =>
       Overview.column r = label c
       /\ (Overview.unique_data r + Overview.missing_value r <= nrows df)%nat
       /\ (Overview.unique_data r = 0%nat
           <-> Overview.missing_value r = nrows df))
    df (overview_df df).
Proof.
  intros Hwf. unfold overview_df.
  apply Forall2_map_of with (P := fun c => column_len c = nrows df);
    [| exact Hwf].
  intros c Hc. simpl.
  destruct (column_nunique_le_count c) as [Hle Hz].
  pose proof (column_count_isnull_sum c) as Hsum.
  split; [reflexivity |]. split; [lia |].
  rewrite Hz. lia.
Qed.

Lemma unique_data_within_non_missing_witness :
  Forall2
    (fun c r =>
       Overview.column r = label c
       /\ (Overview.unique_data r + Overview.missing_value r
           <= nrows sample_frame)%nat
       /\ (Overview.unique_data r = 0%nat
           <-> Overview.missing_value r = nrows sample_frame))
    sample_frame (overview_df sample_frame).
Proof.
  apply (unique_data_within_non_missing sample_frame).
  repeat constructor.
Defined.

(** X14: with at least one row, missing_percentage is 0 for a column
    without missing entries and 100 for a column of missing entries
    only. *)
Theorem missing_percentage_at_the_ends (df : DataFrame) :
  wf_frame df ->
  (0 < nrows df)%nat ->
  Forall2
    (fun c r =>
       exists p,
         Overview.missing_percentage r = Finite p
         /\ (column_isnull_sum c = 0%nat -> p == 0)
         /\ (column_isnull_sum c = nrows df -> p == 100))
    df (overview_df df).
Proof.
  intros Hwf Hrows. unfold overview_df.
  apply Forall2_map_of with (P := fun c => column_len c = nrows df);
    [| exact Hwf].
  intros c Hc. simpl. rewrite Hc.
  pose proof (isnull_sum_le_len c) as Hle. rewrite Hc in Hle.
  destruct (missing_percentage_of_bounds _ _ Hrows Hle)
    as (p & Hp & _ & _ & (z & Hz) & Habs).
  exists p. split; [exact Hp |].
  assert (Hz' : p == inject_Z z * (1 # 100)) by (rewrite Hz; reflexivity).
  apply Qabs_Qle_condition in Habs. destruct Habs as [Ha1 Ha2].
  pose proof (Qnat_pos _ Hrows) as Hpos.
  split.
  - intros E0. rewrite E0 in Ha1, Ha2.
    assert (Hr : Qnat 0 / Qnat (nrows df) == 0).
    { unfold Qnat at 1. simpl. unfold Qdiv. ring. }
    rewrite Hr in Ha1, Ha2.
    assert (Hz0 : z = 0%Z).
    { assert (H1 : (-1 < z)%Z).
      { rewrite Zlt_Qlt. change (inject_Z (-1)) with (-1). lra. }
      assert (H2 : (z < 1)%Z).
      { rewrite Zlt_Qlt. change (inject_Z 1) with 1. lra. }
      lia. }
    rewrite Hz', Hz0. reflexivity.
  - intros E1. rewrite E1 in Ha1, Ha2.
    assert (Hr : Qnat (nrows df) / Qnat (nrows df) == 1).
    { field. lra. }
    rewrite Hr in Ha1, Ha2.
    assert (Hz1 : z = 10000%Z).
    { assert (H1 : (9999 < z)%Z).
      { rewrite Zlt_Qlt. change (inject_Z 9999) with 9999. lra. }
      assert (H2 : (z < 10001)%Z).
      { rewrite Zlt_Qlt. change (inject_Z 10001) with 10001. lra. }
      lia. }
    rewrite Hz', Hz1. reflexivity.
Qed.

Lemma missing_percentage_at_the_ends_witness :
  Forall2
    (fun c r =>
       exists p,
         Overview.missing_percentage r = Finite p
         /\ (column_isnull_sum c = 0%nat -> p == 0)
         /\ (column_isnull_sum c = nrows sample_frame -> p == 100))
    sample_frame (overview_df sample_frame).
Proof.
  apply (missing_percentage_at_the_ends sample_frame).
  - repeat constructor.
  - vm_compute. lia.
Defined.

(** ** When the loops succeed *)

Lemma mapM_succeeds_iff {A B : Type} (f : A -> result B) (l : list A) :
  (exists ys, mapM f l = Ok ys) <-> Forall (fun x => exists y, f x = Ok y) l.
Proof.
  split.
  - intros [ys H]. apply mapM_ok in H.
    induction H as [| x y l l' Hxy _ IH]; constructor; [exists y |]; assumption.
  - induction 1 as [| x l [y Hy] _ [ys Hys]]; simpl.
    + exists []. reflexivity.
    + rewrite Hy, Hys. simpl. exists (y :: ys). reflexivity.
Qed.

Lemma descriptive_stats_numeric_succeeds_iff (data : Series Q) (k : Q) :
  (exists r, descriptive_stats_numeric data k = Ok r)
  <-> (0 < len data)%nat.
Proof.
  unfold len. split.
  - intros [r Hr]. destruct (values data) as [| x l] eqn:E; [| simpl; lia].
    rewrite (descriptive_stats_numeric_empty _ _ E) in Hr. discriminate.
  - intros H.
    assert (Hne : values data <> []) by (destruct (values data); simpl in *; [lia | discriminate]).
    destruct (descriptive_stats_numeric_ok data k Hne) as (r & Hr & _).
    exists r. exact Hr.
Qed.

Lemma descriptive_stats_categorical_succeeds_iff (data : Series string) :
  (exists r, descriptive_stats_categorical data = Ok r)
  <-> (0 < len data)%nat.
Proof.
  unfold len. split.
  - intros [r Hr]. destruct (values data) as [| x l] eqn:E; [| simpl; lia].
    rewrite (descriptive_stats_categorical_empty _ E) in Hr. discriminate.
  - intros H.
    assert (Hne : values data <> []) by (destruct (values data); simpl in *; [lia | discriminate]).
    destruct (descriptive_stats_categorical_ok data Hne)
      as (m & cm & rest & r & _ & Hr & _).
    exists r. exact Hr.
Qed.

Lemma analyze_column_succeeds_iff (df : DataFrame) (c : Column) :
  (exists r, analyze_column df c = Ok r) <-> (0 < column_count c)%nat.
Proof.
  split.
  - intros [r Hr]. apply analyze_column_ok in Hr. apply Hr.
  - intros H. unfold analyze_column.
    assert (Hst : exists st, column_stats c = Ok st).
    { destruct c as [s | s]; simpl in *.
      - apply (descriptive_stats_numeric_succeeds_iff _ tukey_factor_default)
          in H.
        destruct H as [r Hr]. rewrite Hr. simpl. eexists. reflexivity.
      - apply descriptive_stats_categorical_succeeds_iff in H.
        destruct H as [r Hr]. rewrite Hr. simpl. eexists. reflexivity. }
    destruct Hst as [st Hst]. rewrite Hst. simpl. eexists. reflexivity.
Qed.

Lemma numeric_columns_Forall (P : Series (option Q) -> Prop)
  (df : DataFrame) :
  Forall P (numeric_columns df)
  <-> Forall (fun c => match c with
                       | NumericColumn s => P s
                       | ObjectColumn _ => True
                       end) df.
Proof.
  induction df as [| [s | s] df IH]; simpl.
  - split; constructor.
  - rewrite !Forall_cons_iff, IH. reflexivity.
  - rewrite Forall_cons_iff, IH. tauto.
Qed.

Lemma object_columns_Forall (P : Series (option string) -> Prop)
  (df : DataFrame) :
  Forall P (object_columns df)
  <-> Forall (fun c => match c with
                       | NumericColumn _ => True
                       | ObjectColumn s => P s
                       end) df.
Proof.
  induction df as [| [s | s] df IH]; simpl.
  - split; constructor.
  - rewrite Forall_cons_iff, IH. tauto.
  - rewrite !Forall_cons_iff, IH. reflexivity.
Qed.

Lemma columns_split_length (df : DataFrame) :
  (length (numeric_columns df) + length (object_columns df)
   = length df)%nat.
Proof.
  induction df as [| [s | s] df IH]; simpl; lia.
Qed.

Lemma analyze_dataset_success_columns (df : DataFrame) :
  (exists rows, analyze_dataset df = Ok rows)
  <-> Forall (fun c => (0 < column_count c)%nat) df.
Proof.
  unfold analyze_dataset. rewrite mapM_succeeds_iff.
  split; apply Forall_impl; intros c; apply analyze_column_succeeds_iff.
Qed.


(** X16: on a table of numeric and object columns, analyze_dataset returns
    a table exactly when analyze_dataset_numerical and
    analyze_dataset_categorical both do. *)
Theorem analyze_dataset_iff_both_loops (df : DataFrame) :
  (exists rows, analyze_dataset df = Ok rows)
  <-> (exists rows, analyze_dataset_numerical df = Ok rows)
      /\ (exists rows, analyze_dataset_categorical df = Ok rows).
Proof.
  rewrite analyze_dataset_success_columns.
  unfold analyze_dataset_numerical, analyze_dataset_categorical.
  rewrite !mapM_succeeds_iff.
  rewrite (numeric_columns_Forall
             (fun s => exists y,
                descriptive_stats_numeric (dropna s) tukey_factor_default
                = Ok y)).
  rewrite (object_columns_Forall
             (fun s => exists y,
                descriptive_stats_categorical (dropna s) = Ok y)).
  rewrite !Forall_forall. split.
  - intros H. split; intros [s | s] Hin; try exact I; specialize (H _ Hin).
    + apply descriptive_stats_numeric_succeeds_iff. exact H.
    + apply descriptive_stats_categorical_succeeds_iff. exact H.
  - intros [Hn Hc] [s | s] Hin.
    + specialize (Hn _ Hin). simpl in Hn.
      apply descriptive_stats_numeric_succeeds_iff in Hn. exact Hn.
    + specialize (Hc _ Hin). simpl in Hc.
      apply descriptive_stats_categorical_succeeds_iff in Hc. exact Hc.
Qed.

(** ** The rows of the per-kind loops *)




(** X18: analyze_dataset_categorical returns one record per object column,
    in column order and named after it; its mode is a non-missing value of
    the column and 1 <= mode_count <= n; numeric columns contribute no
    record. *)
Theorem analyze_dataset_categorical_rows (df : DataFrame)
  (rows : list CategoricalStats.t) :
  analyze_dataset_categorical df = Ok rows ->
  (length rows + length (numeric_columns df) = length df)%nat
  /\ Forall2
       (fun s r =>
          CategoricalStats.column r = name s
          /\ CategoricalStats.n r = length (dropna_list (values s))
          /\ In (Some (CategoricalStats.mode r)) (values s)
          /\ (1 <= CategoricalStats.mode_count r <= CategoricalStats.n r)%nat)
       (object_columns df) rows.
Proof.
  intros H. apply mapM_ok in H.
  split.
  - rewrite <- (Forall2_length H). pose proof (columns_split_length df). lia.
  - eapply Forall2_impl; [| exact H].
    intros s r Hr. simpl in Hr.
    assert (Hne : values (dropna s) <> []).
    { intros E. rewrite (descriptive_stats_categorical_empty _ E) in Hr.
      discriminate. }
    destruct (descriptive_stats_categorical_table _ Hne)
      as (m & cm & rest & r' & Hvc & Hr' & Hc & Hn & _ & Hm & Hcm & _
          & _ & Hsum & Hpos & _).
    rewrite Hr in Hr'. inversion Hr'; subst r'. clear Hr'.
    destruct (value_counts_spec (dropna s)) as (_ & _ & Hk & _).
    rewrite Hvc in Hk.
    split; [exact Hc |]. split; [exact Hn |]. split.
    + assert (Hin : In m (dropna_list (values s)))
        by (apply Hk; left; reflexivity).
      rewrite Hm. clear - Hin.
      induction (values s) as [| [v |] l IH]; simpl in *;
        [contradiction | | right; apply IH, Hin].
      destruct Hin as [-> | Hin]; [left; reflexivity | right; apply IH, Hin].
    + rewrite Hcm, Hn. simpl in Hsum |- *. lia.
Qed.

Lemma analyze_dataset_categorical_rows_witness :
  exists rows,
    analyze_dataset_categorical sample_frame = Ok rows
    /\ (length rows + length (numeric_columns sample_frame)
        = length sample_frame)%nat.
Proof.
  destruct (analyze_dataset_categorical sample_frame) as [rows | e] eqn:E.
  - exists rows. split; [reflexivity |].
    apply (analyze_dataset_categorical_rows sample_frame rows E).
  - vm_compute in E. discriminate.
Defined.

(** ** The rows of [analyze_dataset] *)

(** X19: every row of a successful analyze_dataset carries the statistics
    of its column's kind, computed on the column without its missing
    entries (with the factor 1.5 for a numeric column), and null in every
    field of the other kind; n_unique equals unique_data for both kinds. *)
Theorem analyze_dataset_row_shape (df : DataFrame)
  (rows : list Combined.t) :
  analyze_dataset df = Ok rows ->
  Forall2
    (fun c r =>
       Combined.n_unique r = Combined.unique_data r
       /\ match c with
          | NumericColumn s =>
              (exists ns,
                 descriptive_stats_numeric (dropna s) tukey_factor_default
                 = Ok ns
                 /\ Combined.min r = Some (NumericStats.min ns)
                 /\ Combined.max r = Some (NumericStats.max ns)
                 /\ Combined.mean r = Some (NumericStats.mean ns)
                 /\ Combined.variance r = Some (NumericStats.variance ns)
                 /\ Combined.median r = Some (NumericStats.median ns)
                 /\ Combined.q1 r = Some (NumericStats.q1 ns)
                 /\ Combined.q3 r = Some (NumericStats.q3 ns)
                 /\ Combined.iqr r = Some (NumericStats.iqr ns)
                 /\ Combined.lower_fence r
                    = Some (NumericStats.lower_fence ns)
                 /\ Combined.upper_fence r
                    = Some (NumericStats.upper_fence ns)
                 /\ Combined.n_outliers r
                    = Some (NumericStats.n_outliers ns))
              /\ Combined.mode r = None
              /\ Combined.mode_count r = None
              /\ Combined.second_most_common r = None
              /\ Combined.second_most_common_count r = None
          | ObjectColumn s =>
              (exists cs,
                 descriptive_stats_categorical (dropna s) = Ok cs
                 /\ Combined.mode r = Some (CategoricalStats.mode cs)
                 /\ Combined.mode_count r
                    = Some (CategoricalStats.mode_count cs)
                 /\ Combined.second_most_common r
                    = CategoricalStats.second_most_common cs
                 /\ Combined.second_most_common_count r
                    = CategoricalStats.second_most_common_count cs)
              /\ Combined.min r = None
              /\ Combined.max r = None
              /\ Combined.mean r = None
              /\ Combined.variance r = None
              /\ Combined.median r = None
              /\ Combined.q1 r = None
              /\ Combined.q3 r = None
              /\ Combined.iqr r = None
              /\ Combined.lower_fence r = None
              /\ Combined.upper_fence r = None
              /\ Combined.n_outliers r = None
          end)
    df rows.
Proof.
  intros H. apply mapM_ok in H.
  eapply Forall2_impl; [| exact H].
  intros c r Hr. unfold analyze_column in Hr.
  apply bind_ok in Hr. destruct Hr as (st & Hst & Hr).
  destruct c as [s | s]; simpl in Hst;
    apply bind_ok in Hst; destruct Hst as (x & Hx & Hst);
    inversion Hst; subst st; inversion Hr; subst r; simpl.
  - split; [reflexivity |]. split; [| repeat split].
    exists x. split; [exact Hx |]. repeat split.
  - unfold descriptive_stats_categorical in Hx.
    pose proof Hx as Hx'.
    apply bind_ok in Hx'. destruct Hx' as (md & _ & Hcs).
    inversion Hcs; subst x. simpl.
    split; [reflexivity |]. split; [| repeat split].
    eexists. split; [exact Hx |]. repeat split.
Qed.

Lemma analyze_dataset_row_shape_witness :
  Forall2
    (fun c r => Combined.n_unique r = Combined.unique_data r)
    sample_frame sample_rows.
Proof.
  assert (Hok : analyze_dataset sample_frame = Ok sample_rows)
    by (vm_compute; reflexivity).
  eapply Forall2_impl;
    [| exact (analyze_dataset_row_shape sample_frame sample_rows Hok)].
  intros c r [H _]. exact H.
Defined.

Lemma Forall2_map_left {A B C : Type} (f : A -> B) (R : B -> C -> Prop)
  (l : list A) (l' : list C) :
  Forall2 (fun x y => R (f x) y) l l' -> Forall2 R (map f l) l'.
Proof.
  induction 1; simpl; constructor; assumption.
Qed.

(** X20: the overview fields of a successful analyze_dataset are those of
    overview_df: row by row the two tables agree on the column label,
    unique_data, missing_value, missing_percentage and duplicated. *)
Theorem analyze_dataset_agrees_with_overview (df : DataFrame)
  (rows : list Combined.t) :
  analyze_dataset df = Ok rows ->
  Forall2
    (fun o r =>
       Overview.column o = Combined.column r
       /\ Overview.unique_data o = Combined.unique_data r
       /\ Overview.missing_value o = Combined.missing_value r
       /\ Overview.missing_percentage o = Combined.missing_percentage r
       /\ Overview.duplicated o = Combined.duplicated r)
    (overview_df df) rows.
Proof.
  intros H. apply mapM_ok in H. unfold overview_df.
  apply Forall2_map_left.
  eapply Forall2_impl; [| exact H].
  intros c r Hr. unfold analyze_column in Hr.
  apply bind_ok in Hr. destruct Hr as (st & _ & Hr).
  inversion Hr; subst r; simpl. repeat split.
Qed.

Lemma analyze_dataset_agrees_with_overview_witness :
  Forall2
    (fun o r =>
       Overview.column o = Combined.column r
       /\ Overview.unique_data o = Combined.unique_data r
       /\ Overview.missing_value o = Combined.missing_value r
       /\ Overview.missing_percentage o = Combined.missing_percentage r
       /\ Overview.duplicated o = Combined.duplicated r)
    (overview_df sample_frame) sample_rows.
Proof.
  apply (analyze_dataset_agrees_with_overview sample_frame sample_rows).
  vm_compute. reflexivity.
Defined.
